(** * zarr_checksum: the calculator module and the checksum tree it drives

    Shallow embedding of [zarr_checksum/calculator.py]
    ([yield_files_s3], [yield_files_local], [compute_zarr_checksum]) together
    with a model of [zarr_checksum.tree.ZarrChecksumTree], whose interface the
    calculator uses.

    Conventions.
    - A [pathlib.Path] (POSIX flavour) is the tuple of its [parts]: a list of
      strings whose head is the anchor (one or two slashes) when the path is
      absolute.
    - Python [int] is [Z]; [str] is [string]; [bytes] is [list byte].
    - A call that may raise returns a [result]; a generator is described by
      the trace it produces when it is iterated. *)

From Stdlib Require Import ZArith Ascii String List Sorted Lia.
From stdpp Require Import base option list gmap strings pretty.

Local Open Scope Z_scope.
Local Open Scope string_scope.
Local Open Scope list_scope.

(** ** Part I. Definitions *)

(** *** Exceptions and fallible computations *)

Inductive Exception : Type :=
| DuplicatePathError
| StructuralInvariantError
| ValueError
| OSError
| PyException (msg : string).

Inductive result (A : Type) : Type :=
| Ok (a : A)
| Err (e : Exception).
Arguments Ok {A} a.
Arguments Err {A} e.

#[export] Instance result_ret : MRet result := fun A a => Ok a.
#[export] Instance result_bind : MBind result := fun A B f m =>
  match m with
  | Ok a => f a
  | Err e => Err e
  end.
#[export] Instance result_fmap : FMap result := fun A B f m =>
  match m with
  | Ok a => Ok (f a)
  | Err e => Err e
  end.

(** Left fold of a fallible step, stopping at the first exception. *)
Fixpoint foldM {A B : Type} (f : A -> B -> result A) (a : A) (l : list B)
  : result A :=
  match l with
  | [] => Ok a
  | x :: l' => a' ← f a x; foldM f a' l'
  end.

(** Map of a fallible function, stopping at the first exception. *)
Fixpoint mapM_result {A B : Type} (f : A -> result B) (l : list A)
  : result (list B) :=
  match l with
  | [] => Ok []
  | x :: l' => y ← f x; ys ← mapM_result f l'; Ok (y :: ys)
  end.

(** *** Strings: [str.split], [str.strip], [os.path.join] *)

Definition sep : ascii := "/"%char.
Definition dquote : ascii := "034"%char.

Definition starts_with (c : ascii) (s : string) : bool :=
  match s with
  | String a _ => Ascii.eqb a c
  | EmptyString => false
  end.

Fixpoint ends_with (c : ascii) (s : string) : bool :=
  match s with
  | EmptyString => false
  | String a EmptyString => Ascii.eqb a c
  | String _ s' => ends_with c s'
  end.

(** [s.split(c)]: the pieces of [s] between occurrences of [c]. *)
Fixpoint split_on (c : ascii) (s : string) : list string :=
  match s with
  | EmptyString => [EmptyString]
  | String a s' =>
      if Ascii.eqb a c then EmptyString :: split_on c s'
      else match split_on c s' with
           | [] => [String a EmptyString]
           | seg :: rest => String a seg :: rest
           end
  end.

(** [s.lstrip(c)] *)
Fixpoint lstrip (c : ascii) (s : string) : string :=
  match s with
  | String a s' => if Ascii.eqb a c then lstrip c s' else s
  | EmptyString => EmptyString
  end.

(** [s.rstrip(c)] *)
Fixpoint rstrip (c : ascii) (s : string) : string :=
  match s with
  | EmptyString => EmptyString
  | String a s' =>
      match rstrip c s' with
      | EmptyString => if Ascii.eqb a c then EmptyString else String a EmptyString
      | r => String a r
      end
  end.

(** [s.strip(c)] for a one-character argument. *)
Definition strip (c : ascii) (s : string) : string := rstrip c (lstrip c s).

(** [os.path.join(a, "")] of [posixpath]: a trailing separator is appended
    unless [a] is empty or already ends with one. *)
Definition os_path_join_empty (a : string) : string :=
  if orb (String.eqb a "") (ends_with sep a) then a
  else (a ++ String sep EmptyString)%string.

(** *** [pathlib.PurePosixPath] *)

Abbreviation Path := (list string) (only parsing).

(** [splitroot]: exactly two leading slashes are kept as the root, any other
    positive number collapses to one. *)
Definition splitroot (part : string) : string * string :=
  if starts_with sep part then
    let stripped := lstrip sep part in
    if Nat.eqb (String.length part - String.length stripped) 2
    then (String sep (String sep EmptyString), stripped)
    else (String sep EmptyString, stripped)
  else (EmptyString, part).

Definition keep_segment (x : string) : bool :=
  negb (String.eqb x "") && negb (String.eqb x ".").

(** [Path(s).parts] *)
Definition path_of_string (s : string) : Path :=
  let '(root, rel) := splitroot s in
  (if String.eqb root "" then [] else [root])
    ++ List.filter keep_segment (split_on sep rel).

Definition has_root (p : Path) : bool :=
  match p with
  | r :: _ => starts_with sep r
  | [] => false
  end.

(** [self.relative_to(other)]: [ValueError] unless [other] is a leading
    part of [self]. *)
Definition relative_to (self other : Path) : result Path :=
  match other with
  | [] => if has_root self then Err ValueError else Ok self
  | _ =>
      if decide (take (length other) self = other)
      then Ok (drop (length other) self)
      else Err ValueError
  end.

(** [self / other] *)
Definition path_join (self other : Path) : Path :=
  if has_root other then other else self ++ other.

(** [path.parent] and [path.name], as segment lists. *)
Definition path_parent (p : Path) : Path := removelast p.
Definition path_name (p : Path) : string := default "" (last p).

(** *** Leaf records *)

Record ChecksummedFile : Type := mkChecksummedFile {
  path : Path;
  size : Z;
  digest : string;
}.

#[export] Instance ChecksummedFile_eq_dec : EqDecision ChecksummedFile.
Proof. solve_decision. Defined.


(** *** Hash primitives *)

(** Modelled from the spec: an entry of a directory manifest (4.3, step 1).
    A file entry carries name, size and digest; a subdirectory entry
    carries name, total size, digest and total file count. *)
Inductive Entry : Type :=
| FileEntry (name : string) (size : Z) (digest : string)
| DirEntry (name : string) (size : Z) (digest : string) (file_count : Z).

(** The digest algorithms are parameters: the canonical serialization of a
    manifest and the hash applied to it, which the tree module fixes, and
    [hashlib.md5(...).hexdigest()] on the bytes fed to the hash object. *)
Class HashBackend : Type := {
  serialize : list Entry -> string;
  hash_hex : string -> string;
  md5_hexdigest : list Byte.byte -> string;
}.

(** *** The checksum tree *)

Module Tree.

(** Modelled from the spec: the [resolved] value of a directory node (3):
    digest, total size and total file count. *)
Record Resolved : Type := mkResolved {
  res_digest : string;
  total_size : Z;
  total_file_count : Z;
}.

(** Modelled from the spec: [zarr_checksum.tree] is not among the sources.
    A [DirectoryNode] (3) holds its direct files by name, the names of its
    subdirectories (a name refers to the node registered under the node's
    own path extended by that name) and, once processed, its resolved
    digest and aggregates. The node's path is its key in the registry. *)
Record DirectoryNode : Type := mkNode {
  files : gmap string (Z * string);
  subdirectories : gset string;
  resolved : option Resolved;
}.

(** Modelled from the spec: a directory node as it is created, without
    files, subdirectories or resolved value. *)
Definition empty_node : DirectoryNode :=
  {| files := ∅; subdirectories := ∅; resolved := None |}.

(** Modelled from the spec: the tree-wide registry of nodes keyed by
    directory path (3, 9); the root is the empty path. *)
Abbreviation ZarrChecksumTree := (gmap (list string) DirectoryNode) (only parsing).

(** Modelled from the spec: [ZarrChecksumTree()]. Nodes are created on
    demand during ingestion (3, lifecycle), so a new tree has none. *)
Definition new_tree : ZarrChecksumTree := ∅.

(** Modelled from the spec: the root is created when it is first needed. *)
Definition ensure_root (reg : ZarrChecksumTree) : ZarrChecksumTree :=
  match reg !! [] with
  | Some _ => reg
  | None => <[ [] := empty_node ]> reg
  end.

(** Modelled from the spec: link the child [name] into the
    [subdirectories] of the node at [parent]. *)
Definition link_child (parent : list string) (name : string)
    (reg : ZarrChecksumTree) : ZarrChecksumTree :=
  alter (fun n => {| files := files n;
                     subdirectories := {[ name ]} ∪ subdirectories n;
                     resolved := resolved n |}) parent reg.

(** Modelled from the spec: walk the ancestor chain from the root (4.1,
    step 2), creating each missing directory node and linking every newly
    created node into its parent's [subdirectories]. *)
Fixpoint ensure_chain (reg : ZarrChecksumTree) (cur rest : list string)
  : ZarrChecksumTree :=
  match rest with
  | [] => reg
  | s :: rest' =>
      let child := cur ++ [s] in
      let reg' := match reg !! child with
                  | Some _ => reg
                  | None => link_child cur s (<[ child := empty_node ]> reg)
                  end in
      ensure_chain reg' child rest'
  end.

(** Modelled from the spec: ensure a node for [dir] and all its ancestors. *)
Definition ensure_directory (reg : ZarrChecksumTree) (dir : list string)
  : ZarrChecksumTree :=
  ensure_chain (ensure_root reg) [] dir.

(** Modelled from the spec: [add_leaf(path, size, digest)] (4.1). The final
    segment is the file name and the preceding segments are the directory
    chain; the record is stored in the parent directory's [files] under the
    file name, and a path that is already present raises
    [DuplicatePathError]. No digest is computed here. For the empty path the
    split follows [pathlib]: the name is the empty string, in the root. *)
Definition add_leaf (tree : ZarrChecksumTree) (path : list string)
    (size : Z) (digest : string) : result ZarrChecksumTree :=
  let dir := path_parent path in
  let name := path_name path in
  let reg := ensure_directory tree dir in
  match reg !! dir with
  | None => Err StructuralInvariantError
  | Some node =>
      match files node !! name with
      | Some _ => Err DuplicatePathError
      | None =>
          Ok (<[ dir := {| files := <[ name := (size, digest) ]> (files node);
                           subdirectories := subdirectories node;
                           resolved := resolved node |} ]> reg)
      end
  end.

(** **** CanonicalEncoder *)

(** Modelled from the spec: the name an entry is sorted by. *)
Definition entry_name (e : Entry) : string :=
  match e with
  | FileEntry n _ _ => n
  | DirEntry n _ _ _ => n
  end.

(** Modelled from the spec: insertion into a sequence sorted by name. *)
Fixpoint insert_by_name (e : Entry) (l : list Entry) : list Entry :=
  match l with
  | [] => [e]
  | x :: l' =>
      if String.leb (entry_name e) (entry_name x) then e :: l
      else x :: insert_by_name e l'
  end.

(** Modelled from the spec: sorting by name, in the byte-wise order of the
    name strings (4.3, step 1). *)
Definition sort_by_name (l : list Entry) : list Entry :=
  foldr insert_by_name [] l.

(** Modelled from the spec: the entry of a direct file. *)
Definition file_entry (f : string * (Z * string)) : Entry :=
  FileEntry f.1 f.2.1 f.2.2.

(** Modelled from the spec: the entry of a resolved subdirectory. *)
Definition dir_entry (d : string * Resolved) : Entry :=
  DirEntry d.1 (total_size d.2) (res_digest d.2) (total_file_count d.2).

(** Modelled from the spec: the sums of the aggregates (4.3, step 4). *)
Definition sum_Z (l : list Z) : Z := foldr Z.add 0 l.

Section Encoder.
Context {backend : HashBackend}.

(** Modelled from the spec: [encode(files, subdirectories)] (4.3). One
    sequence of entries sorted by name is serialized and hashed; the
    aggregates add the direct files to the subdirectories' aggregates. *)
Definition encode (fs : gmap string (Z * string))
    (subdirs : list (string * Resolved)) : Resolved :=
  let fl := map_to_list fs in
  let entries := sort_by_name (map file_entry fl ++ map dir_entry subdirs) in
  {| res_digest := hash_hex (serialize entries);
     total_size := sum_Z (map (fun f => f.2.1) fl)
                   + sum_Z (map (fun d => total_size d.2) subdirs);
     total_file_count := Z.of_nat (length fl)
                   + sum_Z (map (fun d => total_file_count d.2) subdirs) |}.

(** **** TreeProcessor *)

(** Modelled from the spec: the resolved value of the subdirectory [name]
    of the node at [p] (4.2, step 1); an unresolved or missing child is a
    [StructuralInvariantError]. *)
Definition resolved_child (reg : ZarrChecksumTree) (p : list string)
    (name : string) : result (string * Resolved) :=
  match reg !! (p ++ [name]) with
  | Some child =>
      match resolved child with
      | Some r => Ok (name, r)
      | None => Err StructuralInvariantError
      end
  | None => Err StructuralInvariantError
  end.

(** Modelled from the spec: visit one directory (4.2, steps 1-3). *)
Definition process_node (reg : ZarrChecksumTree) (p : list string)
  : result ZarrChecksumTree :=
  match reg !! p with
  | None => Err StructuralInvariantError
  | Some node =>
      children ← mapM_result (resolved_child reg p)
                             (elements (subdirectories node));
      Ok (<[ p := {| files := files node;
                     subdirectories := subdirectories node;
                     resolved := Some (encode (files node) children) |} ]> reg)
  end.

(** Modelled from the spec: the group of directories at depth [d]. *)
Definition paths_at_depth (reg : ZarrChecksumTree) (d : nat)
  : list (list string) :=
  List.filter (fun p => Nat.eqb (length p) d) (elements (dom reg)).

(** Modelled from the spec: process one depth group. *)
Definition process_level (reg : ZarrChecksumTree) (d : nat)
  : result ZarrChecksumTree :=
  foldM process_node reg (paths_at_depth reg d).

(** Modelled from the spec: the maximum number of segments of a directory
    path. *)
Definition max_depth (reg : ZarrChecksumTree) : nat :=
  foldr Nat.max 0%nat (map length (elements (dom reg))).

(** Modelled from the spec: the depth groups from the maximum depth down
    to zero (4.2). *)
Definition levels (reg : ZarrChecksumTree) : list nat :=
  rev (seq 0 (S (max_depth reg))).

(** Modelled from the spec: the composite token of digest, file count and
    size (6). *)
Definition format_checksum (r : Resolved) : string :=
  (res_digest r ++ "-" ++ pretty (total_file_count r) ++ "--"
    ++ pretty (total_size r))%string.

(** Modelled from the spec: the resolved value of the root after all depth
    groups are processed deepest first (4.2). A tree without any node (no
    leaf was added) resolves to the encoding of the empty directory. *)
Definition process_root (tree : ZarrChecksumTree) : result Resolved :=
  if decide (tree = ∅) then Ok (encode ∅ [])
  else
    reg ← foldM process_level tree (levels tree);
    match reg !! [] with
    | Some root =>
        match resolved root with
        | Some r => Ok r
        | None => Err StructuralInvariantError
        end
    | None => Err StructuralInvariantError
    end.

(** Modelled from the spec: [process()] returns the formatted root digest
    (4.2, 6). *)
Definition process (tree : ZarrChecksumTree) : result string :=
  format_checksum <$> process_root tree.

End Encoder.

End Tree.

(** *** [compute_zarr_checksum] *)

(** What iterating a [FileGenerator] to its end produces: the records it
    yields and, when the iteration is ended by an exception, that
    exception. *)
Record FileGenerator : Type := mkFileGenerator {
  gen_items : list ChecksummedFile;
  gen_raised : option Exception;
}.

Definition generator_of_list (l : list ChecksummedFile) : FileGenerator :=
  {| gen_items := l; gen_raised := None |}.

Section Calculator.
Context {backend : HashBackend}.

Definition add_file (tree : Tree.ZarrChecksumTree) (file : ChecksummedFile)
  : result Tree.ZarrChecksumTree :=
  Tree.add_leaf tree (path file) (size file) (digest file).

(** The [for] loop of [compute_zarr_checksum]. *)
Definition ingest (l : list ChecksummedFile) : result Tree.ZarrChecksumTree :=
  foldM add_file Tree.new_tree l.

Definition compute_zarr_checksum (generator : FileGenerator) : result string :=
  tree ← ingest (gen_items generator);
  match gen_raised generator with
  | Some e => Err e
  | None => Tree.process tree
  end.

End Calculator.

(** *** Generators and their traces *)

Inductive Outcome : Type :=
| Returned
| Raised (e : Exception)
| Pending.

(** What a consumer observes when it iterates a generator: the lines
    printed, the records yielded, and how the iteration ended. [Pending]
    marks an observation that stopped while the generator was still
    running. *)
Record Trace : Type := mkTrace {
  printed : list string;
  yielded : list ChecksummedFile;
  outcome : Outcome;
}.

(** *** [yield_files_s3] *)

Record AWSCredentials : Type := mkAWSCredentials {
  key : option string;
  secret : option string;
  region : string;
}.

Record S3Object : Type := mkS3Object {
  Key : string;
  Size : Z;
  ETag : string;
}.

(** Keyword arguments and response of [client.list_objects_v2]. *)
Record ListOptions : Type := mkListOptions {
  Bucket : string;
  Prefix : string;
  ContinuationToken : option string;
}.

Record ListResponse : Type := mkListResponse {
  Contents : option (list S3Object);
  NextContinuationToken : option string;
}.

Abbreviation S3Client := (ListOptions -> ListResponse) (only parsing).

(** [boto3.client("s3", region_name, aws_access_key_id,
    aws_secret_access_key)]: the service reached with given credentials. *)
Class Boto3 : Type := {
  boto3_client : string -> option string -> option string -> S3Client;
}.

Definition default_credentials : AWSCredentials :=
  {| key := None; secret := None; region := "us-east-1" |}.

(** One record of the [mapped] generator expression. *)
Definition mapped_file (prefix : string) (obj : S3Object)
  : result ChecksummedFile :=
  p ← relative_to (path_of_string (Key obj)) (path_of_string prefix);
  Ok {| path := p; size := Size obj; digest := strip dquote (ETag obj) |}.

(** [yield from mapped]: records are produced one object at a time, so the
    records before a failing object have been yielded when it raises. *)
Fixpoint yield_mapped (prefix : string) (objs : list S3Object)
  : list ChecksummedFile * option Exception :=
  match objs with
  | [] => ([], None)
  | obj :: rest =>
      match mapped_file prefix obj with
      | Err e => ([], Some e)
      | Ok f => let '(ys, e) := yield_mapped prefix rest in (f :: ys, e)
      end
  end.

(** The [while True] loop; [fuel] bounds the number of pages fetched. *)
Fixpoint s3_pages (fuel : nat) (client : S3Client) (bucket prefix : string)
    (continuation_token : option string) : list ChecksummedFile * Outcome :=
  match fuel with
  | O => ([], Pending)
  | S fuel' =>
      let options := {| Bucket := bucket; Prefix := prefix;
                        ContinuationToken := continuation_token |} in
      let res := client options in
      let '(ys, e) := yield_mapped prefix (default [] (Contents res)) in
      match e with
      | Some ex => (ys, Raised ex)
      | None =>
          match NextContinuationToken res with
          | None => (ys, Returned)
          | Some tok =>
              let '(ys', o) := s3_pages fuel' client bucket prefix (Some tok) in
              (ys ++ ys', o)
          end
      end
  end.

Definition no_files_warning (prefix : string) : list string :=
  [ ("Warning: No files found under prefix: " ++ prefix ++ ".")%string;
    "Please check that you have provided the fully qualified path to the zarr root." ].

Section S3.
Context {boto3 : Boto3}.

(** The client built from the credentials, or from the defaults. *)
Definition client_of (credentials : option AWSCredentials) : S3Client :=
  let c := default default_credentials credentials in
  boto3_client (region c) (key c) (secret c).

Definition yield_files_s3 (fuel : nat) (bucket prefix : string)
    (credentials : option AWSCredentials) : Trace :=
  let credentials := default default_credentials credentials in
  let client := boto3_client (region credentials) (key credentials)
                             (secret credentials) in
  let test_resp := client {| Bucket := bucket;
                             Prefix := os_path_join_empty prefix;
                             ContinuationToken := None |} in
  match Contents test_resp with
  | None =>
      {| printed := "Retrieving files..." :: no_files_warning prefix;
         yielded := [];
         outcome := Returned |}
  | Some _ =>
      let '(ys, o) := s3_pages fuel client bucket prefix None in
      {| printed := ["Retrieving files..."]; yielded := ys; outcome := o |}
  end.

End S3.

(** A bucket as a service: the objects whose key starts with the requested
    prefix, in stored order, served in pages of [S page] keys. The
    continuation token is the offset of the next page, written in unary. *)
Definition unary (n : nat) : string := string_of_list_ascii (repeat "x"%char n).

Definition bucket_client (objects : list S3Object) (page : nat) : S3Client :=
  fun options =>
    let matching := List.filter (fun o => String.prefix (Prefix options) (Key o))
                                objects in
    let start := match ContinuationToken options with
                 | None => O
                 | Some t => String.length t
                 end in
    let rest := drop start matching in
    {| Contents := match rest with
                   | [] => None
                   | _ => Some (take (S page) rest)
                   end;
       NextContinuationToken :=
         if Nat.ltb (S page) (length rest)
         then Some (unary (start + S page))
         else None |}.

Definition bucket_boto3 (objects : list S3Object) (page : nat) : Boto3 :=
  {| boto3_client := fun _ _ _ => bucket_client objects page |}.

(** *** [yield_files_local] *)

(** The file system as the function sees it: which paths exist, the keys
    that [list(NestedDirectoryStore(root).keys())] enumerates (opening the
    store may raise, as it does when the root is not a directory), and the
    bytes of the regular file at a path. [stat] and [open] both fail on a
    path that is not a regular file, and [st_size] is the number of bytes
    of the file. *)
Class FileSystem : Type := {
  fs_exists : Path -> bool;
  fs_store_keys : Path -> result (list string);
  fs_file : Path -> option (list Byte.byte);
}.

Definition chunk_size : nat := 8 * 1024.

(** [while chunk := f.read(8192): md5sum.update(chunk)]. The file object is
    the bytes not yet read; the hash object is the bytes it was fed. Every
    non-empty chunk consumes part of the file, so [fuel] of the file's
    length is never exhausted. *)
Fixpoint read_chunks (fuel : nat) (f md5sum : list Byte.byte)
  : list Byte.byte :=
  match take chunk_size f with
  | [] => md5sum
  | chunk =>
      match fuel with
      | O => md5sum
      | S fuel' => read_chunks fuel' (drop chunk_size f) (md5sum ++ chunk)
      end
  end.

(** The state of a [yield_files_local] generator object. *)
Inductive LocalGenerator : Type :=
| LocalCreated (directory : string)
| LocalLoop (root_path : Path) (keys : list string)
| LocalDone.

(** One [next()] on a generator object. *)
Inductive Step : Type :=
| StepYield (file : ChecksummedFile) (rest : LocalGenerator)
| StepStop
| StepRaise (e : Exception).

Section Local.
Context {backend : HashBackend} {fs : FileSystem}.

(** The body of the [for] loop for one key. *)
Definition visit_file (root_path : Path) (file : string)
  : result ChecksummedFile :=
  let path := path_of_string file in
  let absolute_path := path_join root_path path in
  match fs_file absolute_path with
  | None => Err OSError
  | Some content =>
      let size := Z.of_nat (length content) in
      let md5sum := read_chunks (length content) content [] in
      Ok {| path := path; size := size; digest := md5_hexdigest md5sum |}
  end.

Definition loop_step (root_path : Path) (keys : list string) : Step :=
  match keys with
  | [] => StepStop
  | file :: keys' =>
      match visit_file root_path file with
      | Ok f => StepYield f (LocalLoop root_path keys')
      | Err e => StepRaise e
      end
  end.

(** Calling the function only creates the generator object. *)
Definition yield_files_local (directory : string) : LocalGenerator :=
  LocalCreated directory.

(** [next(gen)]: run the body up to the next [yield]. *)
Definition local_next (gen : LocalGenerator) : list string * Step :=
  match gen with
  | LocalCreated directory =>
      let root_path := path_of_string directory in
      if negb (fs_exists root_path)
      then ([], StepRaise (PyException "Path does not exist"))
      else match fs_store_keys root_path with
           | Err e => (["Discovering files..."], StepRaise e)
           | Ok keys => (["Discovering files..."], loop_step root_path keys)
           end
  | LocalLoop root_path keys => ([], loop_step root_path keys)
  | LocalDone => ([], StepStop)
  end.

Fixpoint drain_loop (root_path : Path) (keys : list string)
  : list ChecksummedFile * Outcome :=
  match keys with
  | [] => ([], Returned)
  | file :: keys' =>
      match visit_file root_path file with
      | Ok f => let '(ys, o) := drain_loop root_path keys' in (f :: ys, o)
      | Err e => ([], Raised e)
      end
  end.

(** Iterating a generator object to its end. *)
Definition drain_local (gen : LocalGenerator) : Trace :=
  match gen with
  | LocalCreated directory =>
      let root_path := path_of_string directory in
      if negb (fs_exists root_path)
      then {| printed := []; yielded := [];
              outcome := Raised (PyException "Path does not exist") |}
      else match fs_store_keys root_path with
           | Err e => {| printed := ["Discovering files..."]; yielded := [];
                         outcome := Raised e |}
           | Ok keys =>
               let '(ys, o) := drain_loop root_path keys in
               {| printed := ["Discovering files..."]; yielded := ys;
                  outcome := o |}
           end
  | LocalLoop root_path keys =>
      let '(ys, o) := drain_loop root_path keys in
      {| printed := []; yielded := ys; outcome := o |}
  | LocalDone => {| printed := []; yielded := []; outcome := Returned |}
  end.

End Local.

(** A generator that ended is an iterable [compute_zarr_checksum] accepts. *)
Definition generator_of_trace (t : Trace) : FileGenerator :=
  {| gen_items := yielded t;
     gen_raised := match outcome t with
                   | Raised e => Some e
                   | _ => None
                   end |}.

(** *** Specification predicates and sample environments *)

(** A segment as [pathlib] keeps it: not empty, not a single dot, and
    without separator. *)
Definition plain_segment (x : string) : Prop :=
  x <> "" /\ x <> "." /\ ~ In sep (list_ascii_of_string x).

(** An object is listed when some page of the listing under the raw prefix
    contains it. *)
Definition listed (client : S3Client) (bucket prefix : string)
    (obj : S3Object) : Prop :=
  exists tok objs,
    Contents (client {| Bucket := bucket; Prefix := prefix;
                        ContinuationToken := tok |}) = Some objs
    /\ obj ∈ objs.

Definition quoted (s : string) : string :=
  String dquote (s ++ String dquote EmptyString)%string.

Definition sample_bucket : list S3Object :=
  [ mkS3Object "foo/a" 1 (quoted "0cc175b9c0f1b6a831c399e269772661");
    mkS3Object "foo/b/big" 20971520
               (quoted "9b2cf535f27731c974343645a3985328-2");
    mkS3Object "foobar" 2 (quoted "3858f62230ac3c915f300c664312c63f") ].

Definition dotdot_bucket : list S3Object :=
  [ mkS3Object "foo/../x" 1 (quoted "0cc175b9c0f1b6a831c399e269772661") ].

(** The claim of C4 as the specification words it: no leading separator and
    neither dot nor dot-dot segments. *)
Definition normalized_relative (p : Path) : Prop :=
  Forall (fun x => plain_segment x /\ x <> "..") p.

Definition sample_backend : HashBackend :=
  {| serialize := fun entries => String.concat ";" (map Tree.entry_name entries);
     hash_hex := fun s => s;
     md5_hexdigest := fun bytes => pretty (length bytes) |}.

(** A store at [/data/z] with two files. *)
Definition sample_fs : FileSystem :=
  {| fs_exists := fun p => bool_decide (p = ["/"; "data"; "z"]);
     fs_store_keys := fun p =>
       if bool_decide (p = ["/"; "data"; "z"]) then Ok [".zgroup"; "0/0"]
       else Err OSError;
     fs_file := fun p =>
       if bool_decide (p = ["/"; "data"; "z"; ".zgroup"])
       then Some [Byte.x7b; Byte.x7d]
       else if bool_decide (p = ["/"; "data"; "z"; "0"; "0"])
       then Some [Byte.x00; Byte.x01; Byte.x02]
       else None |}.


(** The directory and the file name a leaf is stored under. *)
Definition leaf_dir (f : ChecksummedFile) : list string := path_parent (path f).
Definition leaf_name (f : ChecksummedFile) : string := path_name (path f).
Definition leaf_key (f : ChecksummedFile) : list string * string :=
  (leaf_dir f, leaf_name f).

(** A path as [pathlib] builds it has no empty segment. *)
Definition wellformed_path (p : Path) : Prop := "" ∉ p.

Definition files_at (reg : Tree.ZarrChecksumTree) (q : list string)
  : gmap string (Z * string) :=
  from_option Tree.files ∅ (reg !! q).

Definition resolved_at (reg : Tree.ZarrChecksumTree) (q : list string)
  : option Tree.Resolved :=
  reg !! q ≫= Tree.resolved.

(** Every directory but the root has its parent in the registry. *)
Definition prefix_closed (reg : Tree.ZarrChecksumTree) : Prop :=
  forall q s, is_Some (reg !! (q ++ [s])) -> is_Some (reg !! q).

(** The names in [subdirectories] are exactly the registered children. *)
Definition well_linked (reg : Tree.ZarrChecksumTree) : Prop :=
  forall q n s, reg !! q = Some n ->
    (s ∈ Tree.subdirectories n <-> is_Some (reg !! (q ++ [s]))).

(** The registry that holds exactly the leaves of [l]: its directories are
    the ancestors of the leaves, parents link their children, every leaf is
    filed under its directory and name, and nothing is resolved yet. *)
Record holds (reg : Tree.ZarrChecksumTree) (l : list ChecksummedFile) : Prop := {
  holds_dom : forall q,
    is_Some (reg !! q) <-> exists f, f ∈ l /\ q `prefix_of` leaf_dir f;
  holds_links : well_linked reg;
  holds_files : forall q name v,
    files_at reg q !! name = Some v
    <-> exists f, f ∈ l /\ leaf_key f = (q, name) /\ v = (size f, digest f);
  holds_unresolved : forall q, resolved_at reg q = None;
}.

(** Every name in [subdirectories] refers to a registered node. *)
Definition linked (reg : Tree.ZarrChecksumTree) : Prop :=
  forall q n s, reg !! q = Some n -> s ∈ Tree.subdirectories n ->
    is_Some (reg !! (q ++ [s])).

(** Every node at depth [d] or deeper is resolved. *)
Definition resolved_from (reg : Tree.ZarrChecksumTree) (d : nat) : Prop :=
  forall q n, reg !! q = Some n -> (d <= length q)%nat ->
    is_Some (Tree.resolved n).

(** [reg'] has the nodes of [reg] with the same children and files, and
    every node resolved in [reg] is resolved in [reg']. *)
Definition advances (reg reg' : Tree.ZarrChecksumTree) : Prop :=
  forall q,
    match reg !! q, reg' !! q with
    | Some n, Some n' =>
        Tree.subdirectories n' = Tree.subdirectories n
        /\ Tree.files n' = Tree.files n
        /\ (is_Some (Tree.resolved n) -> is_Some (Tree.resolved n'))
    | None, None => True
    | _, _ => False
    end.

(** The leaves of a small store, in two orders. *)
Definition sample_leaves : list ChecksummedFile :=
  [ mkChecksummedFile ["a"; "b"; "x"] 10 "d1";
    mkChecksummedFile ["a"; "b"; "y"] 20 "d2";
    mkChecksummedFile ["a"; "c"] 30 "d3" ].

Definition sample_leaves_shuffled : list ChecksummedFile :=
  [ mkChecksummedFile ["a"; "c"] 30 "d3";
    mkChecksummedFile ["a"; "b"; "y"] 20 "d2";
    mkChecksummedFile ["a"; "b"; "x"] 10 "d1" ].

(** The order the encoder sorts by. *)
Definition by_name (a b : Entry) : Prop :=
  String.leb (Tree.entry_name a) (Tree.entry_name b) = true.

(** *** Further specification vocabulary *)

(** The segments [pathlib] keeps of a string without root. *)
Definition segments (s : string) : list string :=
  List.filter keep_segment (split_on sep s).

(** The objects of a bucket whose key starts with a prefix string. *)
Definition matching_objects (prefix : string) (objects : list S3Object)
  : list S3Object :=
  List.filter (fun o => String.prefix prefix (Key o)) objects.

(** How a generator ends after [yield from mapped] on its last page. *)
Definition mapped_outcome (e : option Exception) : Outcome :=
  match e with
  | Some ex => Raised ex
  | None => Returned
  end.

(** A store at [/data/z] whose second key is not a readable file. *)
Definition broken_fs : FileSystem :=
  {| fs_exists := fun p => bool_decide (p = ["/"; "data"; "z"]);
     fs_store_keys := fun p =>
       if bool_decide (p = ["/"; "data"; "z"])
       then Ok [".zgroup"; "gone"; "0/0"]
       else Err OSError;
     fs_file := fun p =>
       if bool_decide (p = ["/"; "data"; "z"; ".zgroup"])
       then Some [Byte.x7b; Byte.x7d]
       else if bool_decide (p = ["/"; "data"; "z"; "0"; "0"])
       then Some [Byte.x00; Byte.x01; Byte.x02]
       else None |}.

(** The objects of the pages that the loop of [yield_files_s3] requests, in
    order: the page for the given token, then the pages its continuation
    tokens lead to, at most [fuel] pages. *)
Fixpoint listing (fuel : nat) (client : S3Client) (bucket prefix : string)
    (continuation_token : option string) : list S3Object :=
  match fuel with
  | O => []
  | S fuel' =>
      let res := client {| Bucket := bucket; Prefix := prefix;
                           ContinuationToken := continuation_token |} in
      default [] (Contents res)
        ++ match NextContinuationToken res with
           | None => []
           | Some tok => listing fuel' client bucket prefix (Some tok)
           end
  end.
(** ** Part II. Theorems *)

(** *** The result monad *)

Lemma foldM_app {A B : Type} (f : A -> B -> result A) (a : A) (l1 l2 : list B) :
  foldM f a (l1 ++ l2) = (a' ← foldM f a l1; foldM f a' l2).
Proof.
  revert a. induction l1 as [|x l1 IH]; intros a; simpl; [done|].
  destruct (f a x) as [a'|e]; simpl; [apply IH|done].
Qed.

Lemma foldM_cons {A B : Type} (f : A -> B -> result A) (a : A) (x : B)
    (l : list B) :
  foldM f a (x :: l) = (a' ← f a x; foldM f a' l).
Proof. reflexivity. Qed.

(** *** Strings and paths *)

Lemma split_on_no_sep (c : ascii) (s : string) :
  Forall (fun seg => ~ In c (list_ascii_of_string seg)) (split_on c s).
Proof.
  induction s as [|a s IH]; simpl.
  - constructor; [|constructor]. simpl. tauto.
  - destruct (Ascii.eqb_spec a c) as [->|Hne].
    + constructor; [simpl; tauto|exact IH].
    + destruct (split_on c s) as [|seg rest].
      * constructor; [|constructor]. simpl. intros [H|[]]. congruence.
      * apply Forall_cons in IH as [Hseg Hrest].
        constructor; [|exact Hrest]. simpl. intros [H|H]; [congruence|tauto].
Qed.

Lemma keep_segment_spec (x : string) :
  keep_segment x = true -> x <> "" /\ x <> ".".
Proof.
  unfold keep_segment. intros H. apply andb_prop in H as [H1 H2].
  apply negb_true_iff in H1, H2.
  apply String.eqb_neq in H1, H2. done.
Qed.

Lemma segments_plain (rel : string) :
  Forall plain_segment (List.filter keep_segment (split_on sep rel)).
Proof.
  apply List.Forall_forall. intros x Hx.
  apply List.filter_In in Hx as [Hin Hkeep].
  apply keep_segment_spec in Hkeep as [H1 H2].
  repeat split; [done..|].
  pose proof (split_on_no_sep sep rel) as Hall.
  rewrite List.Forall_forall in Hall. by apply Hall.
Qed.

Lemma splitroot_root (s : string) :
  (splitroot s).1 = "" /\ starts_with sep s = false
  \/ starts_with sep (splitroot s).1 = true.
Proof.
  unfold splitroot. destruct (starts_with sep s) eqn:Hs; [right|left; done].
  destruct (Nat.eqb _ 2); reflexivity.
Qed.

(** The parts of a parsed path after its first one are plain segments, and
    so is the first one unless it is the anchor. *)
Lemma path_of_string_tail (s : string) :
  Forall plain_segment (tail (path_of_string s)).
Proof.
  unfold path_of_string. destruct (splitroot s) as [root rel].
  destruct (String.eqb root ""); simpl.
  - pose proof (segments_plain rel) as H.
    destruct (List.filter keep_segment (split_on sep rel)); [constructor|].
    by apply Forall_cons in H as [_ H].
  - apply segments_plain.
Qed.

Lemma path_of_string_no_root (s : string) :
  has_root (path_of_string s) = false -> Forall plain_segment (path_of_string s).
Proof.
  unfold path_of_string.
  destruct (splitroot_root s) as [[Hroot _]|Hroot];
    destruct (splitroot s) as [root rel]; simpl in *.
  - subst root. simpl. intros _. apply segments_plain.
  - destruct (String.eqb_spec root "") as [->|_]; [done|].
    simpl. congruence.
Qed.

(** A successful [relative_to] splits the parts of [self] into those of
    [other] and the result, whose segments are all plain: the result carries
    no anchor. *)
Lemma relative_to_Ok (k pre : string) (p : Path) :
  relative_to (path_of_string k) (path_of_string pre) = Ok p ->
  path_of_string k = path_of_string pre ++ p /\ Forall plain_segment p.
Proof.
  unfold relative_to.
  destruct (path_of_string pre) as [|o os] eqn:Hpre.
  - destruct (has_root (path_of_string k)) eqn:Hroot; [done|].
    intros [= <-]. split; [done|]. by apply path_of_string_no_root.
  - case_decide as Htake; [|done]. intros [= <-]. split.
    + rewrite <- Htake at 1. by rewrite take_drop.
    + pose proof (path_of_string_tail k) as Htail.
      destruct (path_of_string k) as [|x xs]; simpl in *; [constructor|].
      by apply Forall_drop.
Qed.

(** *** [yield_files_s3] *)

Lemma yield_mapped_yielded (prefix : string) (objs : list S3Object) f :
  f ∈ (yield_mapped prefix objs).1 ->
  exists obj, obj ∈ objs /\ mapped_file prefix obj = Ok f.
Proof.
  induction objs as [|obj objs IH]; simpl; [by intros ?%elem_of_nil|].
  destruct (mapped_file prefix obj) as [g|e] eqn:Hg; simpl;
    [|by intros ?%elem_of_nil].
  destruct (yield_mapped prefix objs) as [ys e]. simpl in *.
  intros [->|Hin]%elem_of_cons.
  - exists obj. split; [left|done].
  - destruct (IH Hin) as (obj' & Hobj' & Hf). exists obj'. split; [by right|done].
Qed.

Lemma s3_pages_yielded (fuel : nat) (client : S3Client) (bucket prefix : string)
    (tok : option string) f :
  f ∈ (s3_pages fuel client bucket prefix tok).1 ->
  exists obj, listed client bucket prefix obj /\ mapped_file prefix obj = Ok f.
Proof.
  revert tok. induction fuel as [|fuel IH]; intros tok; simpl;
    [by intros ?%elem_of_nil|].
  pose proof (yield_mapped_yielded prefix
    (default [] (Contents (client (mkListOptions bucket prefix tok)))) f) as Hpage.
  destruct (yield_mapped prefix _) as [ys e].
  assert (Hys : f ∈ ys -> exists obj, listed client bucket prefix obj
                                      /\ mapped_file prefix obj = Ok f).
  { intros Hin. destruct (Hpage Hin) as (obj & Hobj & Hf).
    exists obj. split; [|done]. exists tok.
    destruct (Contents (client (mkListOptions bucket prefix tok))) as [objs|];
      simpl in Hobj; [by exists objs|by apply elem_of_nil in Hobj]. }
  destruct e as [ex|]; simpl; [done|].
  destruct (NextContinuationToken _) as [tok'|]; simpl; [|done].
  specialize (IH (Some tok')).
  destruct (s3_pages fuel client bucket prefix (Some tok')) as [ys' o].
  simpl in *. intros [Hin|Hin]%elem_of_app; auto.
Qed.

(** The records of a page are the images of its objects, one by one and in
    order, up to the first object that raises. *)
Lemma yield_mapped_records (prefix : string) (objs : list S3Object) :
  Forall2 (fun f o => mapped_file prefix o = Ok f)
          (yield_mapped prefix objs).1
          (take (length (yield_mapped prefix objs).1) objs)
  /\ ((yield_mapped prefix objs).2 = None ->
      length (yield_mapped prefix objs).1 = length objs).
Proof.
  induction objs as [|obj objs [IH1 IH2]]; simpl; [by split; [constructor|]|].
  destruct (mapped_file prefix obj) as [f|e] eqn:Hf; simpl;
    [|by split; [constructor|]].
  destruct (yield_mapped prefix objs) as [ys e]. simpl in *.
  split; [by constructor|]. intros He. by rewrite IH2.
Qed.

(** The records of the loop are the images of the listed objects, one by
    one and in the order of the listing. *)
Lemma s3_pages_records (fuel : nat) (client : S3Client) (bucket prefix : string) :
  forall tok : option string,
    Forall2 (fun f o => mapped_file prefix o = Ok f)
            (s3_pages fuel client bucket prefix tok).1
            (take (length (s3_pages fuel client bucket prefix tok).1)
                  (listing fuel client bucket prefix tok)).
Proof.
  induction fuel as [|fuel IH]; intros tok; simpl; [constructor|].
  set (res := client (mkListOptions bucket prefix tok)).
  destruct (yield_mapped_records prefix (default [] (Contents res)))
    as [Hpage Hfull].
  destruct (yield_mapped prefix (default [] (Contents res))) as [ys e].
  simpl in Hpage, Hfull.
  assert (Hle : (length ys <= length (default [] (Contents res)))%nat).
  { apply Forall2_length in Hpage. rewrite length_take in Hpage. lia. }
  destruct e as [ex|]; simpl.
  { by rewrite take_app_le. }
  specialize (Hfull eq_refl).
  rewrite take_ge in Hpage by lia.
  destruct (NextContinuationToken res) as [tok'|]; simpl.
  - specialize (IH (Some tok')).
    destruct (s3_pages fuel client bucket prefix (Some tok')) as [ys' o].
    simpl in *. rewrite length_app, Hfull, take_app_add.
    by apply Forall2_app.
  - rewrite app_nil_r, take_ge by lia. done.
Qed.

Section S3Facts.
Context {boto3 : Boto3}.

(** Every record the generator yields is the image of a listed object. *)
Lemma yield_files_s3_yielded (fuel : nat) (bucket prefix : string)
    (credentials : option AWSCredentials) f :
  f ∈ yielded (yield_files_s3 fuel bucket prefix credentials) ->
  exists obj, listed (client_of credentials) bucket prefix obj
              /\ mapped_file prefix obj = Ok f.
Proof.
  unfold yield_files_s3, client_of.
  set (client := boto3_client _ _ _).
  destruct (Contents (client _)); simpl; [|by intros ?%elem_of_nil].
  pose proof (s3_pages_yielded fuel client bucket prefix None f) as H.
  destruct (s3_pages fuel client bucket prefix None) as [ys o]. exact H.
Qed.

Lemma mapped_file_Ok (prefix : string) (obj : S3Object) f :
  mapped_file prefix obj = Ok f ->
  relative_to (path_of_string (Key obj)) (path_of_string prefix) = Ok (path f)
  /\ size f = Size obj /\ digest f = strip dquote (ETag obj).
Proof.
  unfold mapped_file. destruct (relative_to _ _) as [p|e]; simpl; [|done].
  by intros [= <-].
Qed.

End S3Facts.

Section S3Claims.
Context {boto3 : Boto3}.

(** C4 (amended). Every record yielded by [yield_files_s3] carries a path
    relative to the given prefix: the parts of the listed object's key are
    the parts of the prefix followed by the record's path, and every segment
    of that path is non-empty, is not a single dot and contains no
    separator, so the path has no leading separator. Segments equal to two
    dots are kept as they are in the key. *)
Theorem yield_files_s3_paths_relative (fuel : nat) (bucket prefix : string)
    (credentials : option AWSCredentials) (f : ChecksummedFile) :
  f ∈ yielded (yield_files_s3 fuel bucket prefix credentials) ->
  exists obj,
    listed (client_of credentials) bucket prefix obj
    /\ path_of_string (Key obj) = path_of_string prefix ++ path f
    /\ Forall plain_segment (path f).
Proof.
  intros Hin. apply yield_files_s3_yielded in Hin as (obj & Hobj & Hf).
  apply mapped_file_Ok in Hf as (Hrel & _ & _).
  apply relative_to_Ok in Hrel as [Hsplit Hplain]. by exists obj.
Qed.


(** C9. The records yielded by [yield_files_s3] follow the listing one by
    one: the record at each position comes from the object listed at that
    position, its digest is exactly that object's ETag with the surrounding
    double quotes stripped, its size is that object's listed size and its
    path is that object's key relative to the prefix. Nothing is computed
    from the object's content. *)
Theorem yield_files_s3_digest_is_etag (fuel : nat) (bucket prefix : string)
    (credentials : option AWSCredentials) :
  let t := yield_files_s3 fuel bucket prefix credentials in
  let objs := listing fuel (client_of credentials) bucket prefix None in
  Forall2 (fun f obj =>
             digest f = strip dquote (ETag obj)
             /\ size f = Size obj
             /\ relative_to (path_of_string (Key obj)) (path_of_string prefix)
                = Ok (path f))
          (yielded t) (take (length (yielded t)) objs).
Proof.
  cbv zeta. unfold yield_files_s3, client_of.
  set (client := boto3_client _ _ _).
  destruct (Contents (client _)); simpl; [|constructor].
  pose proof (s3_pages_records fuel client bucket prefix None) as Hrec.
  destruct (s3_pages fuel client bucket prefix None) as [ys o]. simpl in *.
  eapply Forall2_impl; [exact Hrec|].
  intros f obj Hf. apply mapped_file_Ok in Hf as (Hrel & Hsize & Hdigest).
  done.
Qed.

End S3Claims.

(** The listing of a bucket has no contents exactly when no key starts with
    the requested prefix. *)
Lemma bucket_client_no_contents (objects : list S3Object) (page : nat)
    (bucket pre : string) :
  (forall o, o ∈ objects -> String.prefix pre (Key o) = false) ->
  Contents (bucket_client objects page (mkListOptions bucket pre None)) = None.
Proof.
  intros Hnone. unfold bucket_client. simpl.
  assert (List.filter (fun o => String.prefix pre (Key o)) objects = []) as ->;
    [|done].
  induction objects as [|o objects IH]; simpl; [done|].
  rewrite (Hnone o) by left. apply IH. intros o' Ho'. apply Hnone. by right.
Qed.

(** For a bucket: no key under the prefix as a directory gives the warning
    and an empty, normally ended sequence. *)
Lemma yield_files_s3_empty_bucket_prefix (objects : list S3Object) (page fuel : nat)
    (bucket prefix : string) (credentials : option AWSCredentials) :
  (forall o, o ∈ objects ->
             String.prefix (os_path_join_empty prefix) (Key o) = false) ->
  @yield_files_s3 (bucket_boto3 objects page) fuel bucket prefix credentials
  = {| printed := "Retrieving files..." :: no_files_warning prefix;
       yielded := [];
       outcome := Returned |}.
Proof.
  intros Hnone. unfold yield_files_s3. cbn [boto3_client bucket_boto3].
  by rewrite (bucket_client_no_contents objects page bucket _ Hnone).
Qed.

Lemma length_unary (n : nat) : String.length (unary n) = n.
Proof.
  unfold unary. induction n as [|n IH]; simpl; [done|]. by rewrite IH.
Qed.

(** On a bucket the listing loop ends: with more fuel than the bucket has
    objects the generator never stays pending. *)
Lemma s3_pages_bucket_ends (objects : list S3Object) (page : nat)
    (bucket prefix : string) (fuel : nat) :
  forall tok : option string,
    let matching := List.filter (fun o => String.prefix prefix (Key o)) objects in
    let start := match tok with None => O | Some t => String.length t end in
    (length matching - start < fuel)%nat ->
    (s3_pages fuel (bucket_client objects page) bucket prefix tok).2 <> Pending.
Proof.
  induction fuel as [|fuel IH]; intros tok matching start Hfuel; [lia|].
  simpl. destruct (yield_mapped prefix _) as [ys [ex|]]; [done|].
  fold matching. fold start.
  destruct (Nat.ltb_spec (S page) (length (drop start matching))) as [Hlt|Hge];
    [|done].
  specialize (IH (Some (unary (start + S page)))). simpl in IH.
  rewrite length_unary in IH. fold matching in IH.
  rewrite length_drop in Hlt.
  destruct (s3_pages fuel _ bucket prefix _) as [ys' o]. simpl in *.
  apply IH. lia.
Qed.

Lemma yield_files_s3_bucket_ends (objects : list S3Object) (page fuel : nat)
    (bucket prefix : string) (credentials : option AWSCredentials) :
  (length objects < fuel)%nat ->
  outcome (@yield_files_s3 (bucket_boto3 objects page) fuel bucket prefix
                           credentials) <> Pending.
Proof.
  intros Hfuel. unfold yield_files_s3. cbn [boto3_client bucket_boto3].
  destruct (Contents _); [|done].
  pose proof (s3_pages_bucket_ends objects page bucket prefix fuel None) as Hend.
  destruct (s3_pages fuel _ bucket prefix None) as [ys o]. simpl in *.
  apply Hend.
  pose proof (List.filter_length_le (fun o => String.prefix prefix (Key o)) objects).
  lia.
Qed.

(** C4 (counterexample). For the prefix [foo] and the listed key
    [foo/../x], the yielded path is [../x]: it keeps the dot-dot segment, so
    not every yielded path is normalized. *)
Lemma yield_files_s3_keeps_dotdot :
  ~ (forall f,
       f ∈ yielded (@yield_files_s3 (bucket_boto3 dotdot_bucket 999)
                                    1 "bucket" "foo" None) ->
       normalized_relative (path f)).
Proof.
  intros H.
  specialize (H (mkChecksummedFile [".."; "x"] 1 "0cc175b9c0f1b6a831c399e269772661")).
  assert (Hin : mkChecksummedFile [".."; "x"] 1 "0cc175b9c0f1b6a831c399e269772661"
                ∈ yielded (@yield_files_s3 (bucket_boto3 dotdot_bucket 999)
                                           1 "bucket" "foo" None)).
  { vm_compute. left. }
  apply H in Hin. unfold normalized_relative in Hin. simpl in Hin.
  apply Forall_cons in Hin as [[_ Hne] _]. by apply Hne.
Qed.

Lemma yield_files_s3_paths_relative_witness :
  mkChecksummedFile ["b"; "big"] 20971520 "9b2cf535f27731c974343645a3985328-2"
    ∈ yielded (@yield_files_s3 (bucket_boto3 sample_bucket 0) 2 "bucket" "foo/" None)
  /\ exists obj,
      listed (@client_of (bucket_boto3 sample_bucket 0) None) "bucket" "foo/" obj
      /\ path_of_string (Key obj) = path_of_string "foo/" ++ ["b"; "big"]
      /\ Forall plain_segment ["b"; "big"].
Proof.
  assert (Hin : mkChecksummedFile ["b"; "big"] 20971520
                  "9b2cf535f27731c974343645a3985328-2"
                ∈ yielded (@yield_files_s3 (bucket_boto3 sample_bucket 0)
                                           2 "bucket" "foo/" None)).
  { vm_compute. right. left. }
  split; [exact Hin|].
  exact (@yield_files_s3_paths_relative (bucket_boto3 sample_bucket 0)
           2 "bucket" "foo/" None _ Hin).
Defined.


(** C10. For the prefix [foo] and a bucket holding [foo/a] and [foobar], the
    probe lists under [foo/] and finds [foo/a], the main listing under the
    raw prefix [foo] also returns [foobar], whose path is not under [foo],
    and the generator ends with the [ValueError] of [relative_to] after the
    records before it were yielded. *)
Theorem yield_files_s3_sibling_key_raises :
  os_path_join_empty "foo" = "foo/"
  /\ String.prefix "foo/" "foobar" = false
  /\ String.prefix "foo" "foobar" = true
  /\ relative_to (path_of_string "foobar") (path_of_string "foo") = Err ValueError
  /\ @yield_files_s3 (bucket_boto3 sample_bucket 999) 1 "bucket" "foo" None
     = {| printed := ["Retrieving files..."];
          yielded :=
            [ mkChecksummedFile ["a"] 1 "0cc175b9c0f1b6a831c399e269772661";
              mkChecksummedFile ["b"; "big"] 20971520
                                "9b2cf535f27731c974343645a3985328-2" ];
          outcome := Raised ValueError |}.
Proof. repeat split; vm_compute; reflexivity. Qed.

(** *** [yield_files_local] *)

Lemma chunk_size_pos : (0 < chunk_size)%nat.
Proof. unfold chunk_size. lia. Qed.

Lemma take_chunk_nil {A : Type} (f : list A) : take chunk_size f = [] -> f = [].
Proof.
  pose proof chunk_size_pos as Hpos.
  destruct chunk_size as [|n]; [lia|]. by destruct f.
Qed.

(** Reading a file in chunks feeds the hash object exactly the bytes of the
    file, in order. *)
Lemma read_chunks_all (fuel : nat) (f md5sum : list Byte.byte) :
  (length f <= fuel)%nat -> read_chunks fuel f md5sum = md5sum ++ f.
Proof.
  revert f md5sum. induction fuel as [|fuel IH]; intros f md5sum Hlen.
  - destruct f; [|simpl in Hlen; lia].
    simpl. rewrite ?take_nil. by rewrite app_nil_r.
  - simpl. destruct (take chunk_size f) as [|b chunk] eqn:Htake.
    + apply take_chunk_nil in Htake as ->. by rewrite app_nil_r.
    + rewrite IH.
      * rewrite <- Htake, <- app_assoc. by rewrite take_drop.
      * rewrite length_drop. pose proof chunk_size_pos. lia.
Qed.

Section LocalFacts.
Context {backend : HashBackend} {fs : FileSystem}.

Lemma visit_file_Ok (root_path : Path) (file : string) (f : ChecksummedFile) :
  visit_file root_path file = Ok f ->
  path f = path_of_string file
  /\ exists content,
      fs_file (path_join root_path (path_of_string file)) = Some content
      /\ digest f = md5_hexdigest content
      /\ size f = Z.of_nat (length content).
Proof.
  unfold visit_file.
  destruct (fs_file (path_join root_path (path_of_string file)))
    as [content|] eqn:Hfile; [|done].
  intros [= <-]. simpl. split; [done|]. exists content.
  rewrite read_chunks_all by lia. done.
Qed.

Lemma drain_loop_records (root_path : Path) (keys : list string) :
  Forall2 (fun f file => visit_file root_path file = Ok f)
          (drain_loop root_path keys).1
          (take (length (drain_loop root_path keys).1) keys).
Proof.
  induction keys as [|file keys IH]; simpl; [constructor|].
  destruct (visit_file root_path file) as [f|e] eqn:Hf; simpl; [|constructor].
  destruct (drain_loop root_path keys) as [ys o]. simpl in *.
  by constructor.
Qed.

Lemma drain_loop_complete (root_path : Path) (keys : list string) :
  (forall file, file ∈ keys ->
     is_Some (fs_file (path_join root_path (path_of_string file)))) ->
  length (drain_loop root_path keys).1 = length keys
  /\ (drain_loop root_path keys).2 = Returned.
Proof.
  induction keys as [|file keys IH]; intros Hall; simpl; [done|].
  unfold visit_file.
  destruct (Hall file) as [content ->]; [left|].
  destruct IH as [IH1 IH2]; [intros ? ?; apply Hall; by right|].
  destruct (drain_loop root_path keys) as [ys o]. simpl in *. by rewrite IH1.
Qed.

(** Draining a generator object is iterating [next] until it stops. *)
Lemma drain_local_next (gen : LocalGenerator) :
  drain_local gen
  = match local_next gen with
    | (out, StepYield f rest) =>
        {| printed := out ++ printed (drain_local rest);
           yielded := f :: yielded (drain_local rest);
           outcome := outcome (drain_local rest) |}
    | (out, StepStop) => {| printed := out; yielded := []; outcome := Returned |}
    | (out, StepRaise e) => {| printed := out; yielded := []; outcome := Raised e |}
    end.
Proof.
  destruct gen as [directory|root_path keys|]; simpl; [| |done].
  - destruct (fs_exists (path_of_string directory)); simpl; [|done].
    destruct (fs_store_keys (path_of_string directory)) as [[|file keys]|e];
      simpl; [done| |done].
    destruct (visit_file _ file); simpl; [|done].
    by destruct (drain_loop _ keys).
  - destruct keys as [|file keys]; simpl; [done|].
    destruct (visit_file _ file); simpl; [|done].
    by destruct (drain_loop _ keys).
Qed.

(** C5. Under an existing root directory whose store enumerates [keys], the
    records yielded by [yield_files_local] follow the enumerated keys in
    order; each record's path is the key's path, its digest is the MD5 hex
    digest of the whole content of the file at that path under the root,
    and its size is the number of bytes of that content. When every
    enumerated key is a readable file, one record is yielded per key and
    the generator returns normally. *)
Theorem yield_files_local_records (directory : string) (keys : list string) :
  fs_exists (path_of_string directory) = true ->
  fs_store_keys (path_of_string directory) = Ok keys ->
  let root_path := path_of_string directory in
  let t := drain_local (yield_files_local directory) in
  Forall2 (fun f file =>
             path f = path_of_string file
             /\ exists content,
                 fs_file (path_join root_path (path_of_string file)) = Some content
                 /\ digest f = md5_hexdigest content
                 /\ size f = Z.of_nat (length content))
          (yielded t) (take (length (yielded t)) keys)
  /\ ((forall file, file ∈ keys ->
         is_Some (fs_file (path_join root_path (path_of_string file)))) ->
      length (yielded t) = length keys /\ outcome t = Returned).
Proof.
  intros Hexists Hkeys. cbv zeta. unfold yield_files_local, drain_local.
  rewrite Hexists, Hkeys. cbn [negb].
  set (root_path := path_of_string directory).
  pose proof (drain_loop_records root_path keys) as Hrec.
  pose proof (drain_loop_complete root_path keys) as Hall.
  destruct (drain_loop root_path keys) as [ys o]. simpl in *. split.
  - eapply Forall2_impl; [exact Hrec|]. intros f file Hf.
    by apply visit_file_Ok.
  - exact Hall.
Qed.

(** C6. For a directory argument whose path does not exist, iterating
    [yield_files_local] raises the exception with message
    [Path does not exist] and yields no record. *)
Theorem yield_files_local_missing_root (directory : string) :
  fs_exists (path_of_string directory) = false ->
  drain_local (yield_files_local directory)
  = {| printed := [];
       yielded := [];
       outcome := Raised (PyException "Path does not exist") |}.
Proof.
  intros Hmissing. unfold yield_files_local. simpl. by rewrite Hmissing.
Qed.

(** C8. Calling [yield_files_local] on a path that does not exist returns a
    generator object whose body has not started; the existence check runs,
    and the exception is raised, at the first [next] on that object. *)
Theorem yield_files_local_raises_on_first_next (directory : string) :
  fs_exists (path_of_string directory) = false ->
  yield_files_local directory = LocalCreated directory
  /\ local_next (yield_files_local directory)
     = ([], StepRaise (PyException "Path does not exist")).
Proof.
  intros Hmissing. split; [reflexivity|].
  unfold yield_files_local. simpl. by rewrite Hmissing.
Qed.

End LocalFacts.

Lemma yield_files_local_records_witness :
  @fs_exists sample_fs (path_of_string "/data/z") = true
  /\ @fs_store_keys sample_fs (path_of_string "/data/z") = Ok [".zgroup"; "0/0"]
  /\ length (yielded (@drain_local sample_backend sample_fs
                        (yield_files_local "/data/z"))) = 2%nat
  /\ outcome (@drain_local sample_backend sample_fs
                (yield_files_local "/data/z")) = Returned.
Proof.
  split; [reflexivity|]. split; [reflexivity|].
  destruct (@yield_files_local_records sample_backend sample_fs "/data/z"
              [".zgroup"; "0/0"] eq_refl eq_refl) as [_ Hall].
  apply Hall. intros file Hin.
  apply elem_of_cons in Hin as [->|Hin]; [by eexists|].
  apply elem_of_cons in Hin as [->|Hin]; [by eexists|].
  by apply elem_of_nil in Hin.
Defined.

Lemma yield_files_local_missing_root_witness :
  @fs_exists sample_fs (path_of_string "/data/missing") = false
  /\ @drain_local sample_backend sample_fs (yield_files_local "/data/missing")
     = {| printed := [];
          yielded := [];
          outcome := Raised (PyException "Path does not exist") |}.
Proof.
  split; [reflexivity|].
  apply (@yield_files_local_missing_root sample_backend sample_fs).
  reflexivity.
Defined.

Lemma yield_files_local_raises_on_first_next_witness :
  @fs_exists sample_fs (path_of_string "/data/missing") = false
  /\ yield_files_local "/data/missing" = LocalCreated "/data/missing"
  /\ @local_next sample_backend sample_fs (yield_files_local "/data/missing")
     = ([], StepRaise (PyException "Path does not exist")).
Proof.
  split; [reflexivity|].
  apply (@yield_files_local_raises_on_first_next sample_backend sample_fs).
  reflexivity.
Defined.

(** The sample store, drained. *)
Example drain_sample_store :
  @drain_local sample_backend sample_fs (yield_files_local "/data/z")
  = {| printed := ["Discovering files..."];
       yielded := [ mkChecksummedFile [".zgroup"] 2 "2";
                    mkChecksummedFile ["0"; "0"] 3 "3" ];
       outcome := Returned |}.
Proof. vm_compute. reflexivity. Qed.

(** *** The checksum tree: ingestion *)

Import Tree.

Lemma snoc_ne {A : Type} (l : list A) (x : A) : l ++ [x] <> l.
Proof.
  intros H. apply (f_equal length) in H. rewrite length_app in H.
  simpl in H. lia.
Qed.

Lemma lookup_ensure_root (reg : ZarrChecksumTree) (q : list string) :
  ensure_root reg !! q
  = if decide (q = []) then Some (default empty_node (reg !! []))
    else reg !! q.
Proof.
  unfold ensure_root. destruct (reg !! []) as [n|] eqn:Hroot; simpl.
  - case_decide; [by subst|done].
  - rewrite lookup_insert. case_decide; case_decide; congruence.
Qed.

(** Creating the child [cur ++ [s]] and linking it into [cur]. *)
Lemma lookup_create (reg : ZarrChecksumTree) (cur : list string) (s : string)
    (q : list string) :
  link_child cur s (<[ cur ++ [s] := empty_node ]> reg) !! q
  = if decide (q = cur)
    then (fun n => {| files := files n;
                      subdirectories := {[ s ]} ∪ subdirectories n;
                      resolved := resolved n |}) <$> reg !! cur
    else if decide (q = cur ++ [s]) then Some empty_node else reg !! q.
Proof.
  unfold link_child. rewrite lookup_alter.
  destruct (decide (cur = q)) as [<-|Hne].
  - rewrite decide_True by done.
    rewrite lookup_insert_ne; [done|apply snoc_ne].
  - rewrite decide_False by congruence. rewrite lookup_insert.
    case_decide; case_decide; congruence.
Qed.

Lemma files_at_create (reg : ZarrChecksumTree) cur s q :
  reg !! (cur ++ [s]) = None ->
  files_at (link_child cur s (<[ cur ++ [s] := empty_node ]> reg)) q
  = files_at reg q.
Proof.
  intros Hnone. unfold files_at. rewrite lookup_create.
  repeat case_decide; subst.
  - by destruct (reg !! cur).
  - by rewrite Hnone.
  - done.
Qed.

Lemma resolved_at_create (reg : ZarrChecksumTree) cur s q :
  reg !! (cur ++ [s]) = None ->
  resolved_at (link_child cur s (<[ cur ++ [s] := empty_node ]> reg)) q
  = resolved_at reg q.
Proof.
  intros Hnone. unfold resolved_at. rewrite lookup_create.
  repeat case_decide; subst.
  - by destruct (reg !! cur).
  - by rewrite Hnone.
  - done.
Qed.

Lemma is_Some_create (reg : ZarrChecksumTree) cur s q :
  is_Some (reg !! cur) ->
  is_Some (link_child cur s (<[ cur ++ [s] := empty_node ]> reg) !! q)
  <-> is_Some (reg !! q) \/ q = cur ++ [s].
Proof.
  intros Hcur. rewrite lookup_create.
  destruct (decide (q = cur)) as [->|Hq].
  - rewrite fmap_is_Some. split; [by left|done].
  - destruct (decide (q = cur ++ [s])) as [->|Hq'].
    + split; [by right|done].
    + split; [by left|]. by intros [H|H].
Qed.

Lemma prefix_closed_create (reg : ZarrChecksumTree) cur s :
  prefix_closed reg -> is_Some (reg !! cur) ->
  prefix_closed (link_child cur s (<[ cur ++ [s] := empty_node ]> reg)).
Proof.
  intros Hclosed Hcur q s'. rewrite !is_Some_create by done.
  intros [H|H].
  - left. by apply (Hclosed q s').
  - apply app_inj_tail in H as [-> _]. by left.
Qed.

Lemma well_linked_create (reg : ZarrChecksumTree) cur s :
  prefix_closed reg -> well_linked reg ->
  is_Some (reg !! cur) -> reg !! (cur ++ [s]) = None ->
  well_linked (link_child cur s (<[ cur ++ [s] := empty_node ]> reg)).
Proof.
  intros Hclosed Hlinked Hcur Hnone q n s'.
  rewrite is_Some_create by done. rewrite lookup_create.
  destruct (decide (q = cur)) as [->|Hq].
  - destruct (reg !! cur) as [n0|] eqn:Hn0; [|by destruct Hcur].
    simpl. intros [= <-]. simpl.
    rewrite elem_of_union, elem_of_singleton, (Hlinked cur n0 s' Hn0).
    split.
    + intros [->|H]; [by right|by left].
    + intros [H|H]; [by right|]. left. by apply app_inj_tail in H as [_ ->].
  - destruct (decide (q = cur ++ [s])) as [->|Hq'].
    + intros [= <-]. simpl. split; [set_solver|].
      intros [H|H].
      * apply Hclosed in H. rewrite Hnone in H. by destruct H.
      * by apply snoc_ne in H.
    + intros Hn. rewrite (Hlinked q n s' Hn). split; [auto|].
      intros [H|H]; [done|]. apply app_inj_tail in H as [-> _]. done.
Qed.

(** What walking the chain [rest] below [cur] does to a registry. *)
Lemma ensure_chain_spec (rest : list string) :
  forall (reg : ZarrChecksumTree) (cur : list string),
    prefix_closed reg -> well_linked reg -> is_Some (reg !! cur) ->
    let reg' := ensure_chain reg cur rest in
    prefix_closed reg' /\ well_linked reg'
    /\ (forall q, is_Some (reg' !! q)
                  <-> is_Some (reg !! q)
                      \/ exists r, r `prefix_of` rest /\ q = cur ++ r)
    /\ (forall q, files_at reg' q = files_at reg q)
    /\ (forall q, resolved_at reg' q = resolved_at reg q).
Proof.
  induction rest as [|s rest IH]; intros reg cur Hclosed Hlinked Hcur; simpl.
  - split_and!; try done. intros q. split; [by left|].
    intros [H|(r & ->%prefix_nil_inv & ->)]; [done|]. by rewrite app_nil_r.
  - set (regA := match reg !! (cur ++ [s]) with
                 | Some _ => reg
                 | None => link_child cur s (<[ cur ++ [s] := empty_node ]> reg)
                 end).
    assert (HA : prefix_closed regA /\ well_linked regA
                 /\ (forall q, is_Some (regA !! q)
                               <-> is_Some (reg !! q) \/ q = cur ++ [s])
                 /\ (forall q, files_at regA q = files_at reg q)
                 /\ (forall q, resolved_at regA q = resolved_at reg q)).
    { subst regA. destruct (reg !! (cur ++ [s])) as [n|] eqn:Hchild.
      - split_and!; try done. intros q. split; [by left|].
        intros [H| ->]; [done|]. by rewrite Hchild.
      - split; [by apply prefix_closed_create|].
        split; [by apply well_linked_create|].
        split; [intros q; by apply is_Some_create|].
        split; intros q; [by apply files_at_create|by apply resolved_at_create]. }
    destruct HA as (HclosedA & HlinkedA & HdomA & HfilesA & HresA).
    destruct (IH regA (cur ++ [s]) HclosedA HlinkedA) as (Hc & Hl & Hd & Hf & Hr).
    { apply HdomA. by right. }
    split_and!; try done.
    + intros q. rewrite Hd, HdomA. split.
      * intros [[H|H]|(r & Hr' & ->)].
        -- by left.
        -- right. exists [s]. split; [|done]. by apply prefix_cons, prefix_nil.
        -- right. exists (s :: r). split; [by apply prefix_cons|].
           by rewrite <- app_assoc.
      * intros [H|(r & Hr' & ->)]; [by left; left|].
        destruct r as [|s' r].
        -- left. left. by rewrite app_nil_r.
        -- pose proof (prefix_cons_inv_1 _ _ _ _ Hr') as ->.
           apply prefix_cons_inv_2 in Hr'. right. exists r.
           split; [done|]. by rewrite <- app_assoc.
    + intros q. by rewrite Hf, HfilesA.
    + intros q. by rewrite Hr, HresA.
Qed.

Lemma ensure_root_spec (reg : ZarrChecksumTree) :
  prefix_closed reg -> well_linked reg ->
  let reg' := ensure_root reg in
  prefix_closed reg' /\ well_linked reg'
  /\ (forall q, is_Some (reg' !! q) <-> is_Some (reg !! q) \/ q = [])
  /\ (forall q, files_at reg' q = files_at reg q)
  /\ (forall q, resolved_at reg' q = resolved_at reg q).
Proof.
  intros Hclosed Hlinked. unfold ensure_root.
  destruct (reg !! []) as [root|] eqn:Hroot; simpl.
  - split_and!; try done. intros q. split; [by left|].
    intros [H| ->]; [done|]. by rewrite Hroot.
  - assert (Hdom : forall q, is_Some (<[ [] := empty_node ]> reg !! q)
                             <-> is_Some (reg !! q) \/ q = []).
    { intros q. rewrite lookup_insert. case_decide as Hq.
      - subst q. split; [by right|by eexists].
      - split; [by left|]. intros [H|H]; [done|congruence]. }
    assert (Hchild : forall q s, <[ [] := empty_node ]> reg !! (q ++ [s])
                                 = reg !! (q ++ [s])).
    { intros q s. apply lookup_insert_ne. by destruct q. }
    split_and!; try done.
    + intros q s. rewrite Hchild, Hdom. intros H. left. by apply (Hclosed q s).
    + intros q n s. rewrite Hchild, lookup_insert. case_decide as Hq.
      * subst q. intros [= <-]. simpl. split; [set_solver|].
        intros H. apply (Hclosed [] s) in H. rewrite Hroot in H. by destruct H.
      * apply Hlinked.
    + intros q. unfold files_at. rewrite lookup_insert. case_decide; [|done].
      subst q. by rewrite Hroot.
    + intros q. unfold resolved_at. rewrite lookup_insert. case_decide; [|done].
      subst q. by rewrite Hroot.
Qed.

Lemma ensure_directory_spec (reg : ZarrChecksumTree) (dir : list string) :
  prefix_closed reg -> well_linked reg ->
  let reg' := ensure_directory reg dir in
  prefix_closed reg' /\ well_linked reg'
  /\ (forall q, is_Some (reg' !! q) <-> is_Some (reg !! q) \/ q `prefix_of` dir)
  /\ (forall q, files_at reg' q = files_at reg q)
  /\ (forall q, resolved_at reg' q = resolved_at reg q).
Proof.
  intros Hclosed Hlinked. unfold ensure_directory.
  destruct (ensure_root_spec reg Hclosed Hlinked) as (Hc0 & Hl0 & Hd0 & Hf0 & Hr0).
  destruct (ensure_chain_spec dir (ensure_root reg) [] Hc0 Hl0)
    as (Hc & Hl & Hd & Hf & Hr).
  { apply Hd0. by right. }
  split_and!; try done.
  - intros q. rewrite Hd, Hd0. split.
    + intros [[H| ->]|(r & Hr' & ->)]; [by left|right..]; [apply prefix_nil|done].
    + intros [H|H]; [by left; left|]. right. by exists q.
  - intros q. by rewrite Hf, Hf0.
  - intros q. by rewrite Hr, Hr0.
Qed.

Lemma holds_prefix_closed (reg : ZarrChecksumTree) (l : list ChecksummedFile) :
  holds reg l -> prefix_closed reg.
Proof.
  intros H q s. rewrite !(holds_dom _ _ H).
  intros (f & Hf & Hpre). exists f. split; [done|]. by eapply prefix_app_l.
Qed.

Lemma holds_new_tree : holds new_tree [].
Proof.
  unfold new_tree. split.
  - intros q. rewrite lookup_empty. split; [by intros []|].
    intros (f & Hf & _). by apply elem_of_nil in Hf.
  - intros q n s. by rewrite lookup_empty.
  - intros q name v. unfold files_at. rewrite lookup_empty. simpl.
    rewrite lookup_empty. split; [done|].
    intros (f & Hf & _). by apply elem_of_nil in Hf.
  - intros q. unfold resolved_at. by rewrite lookup_empty.
Qed.

(** The registry depends on the set of leaves only. *)
Lemma holds_ext (reg : ZarrChecksumTree) (l l' : list ChecksummedFile) :
  (forall f, f ∈ l <-> f ∈ l') -> holds reg l -> holds reg l'.
Proof.
  intros Hmem [Hd Hl Hf Hr]. split; [|done| |done].
  - intros q. rewrite Hd. by setoid_rewrite Hmem.
  - intros q name v. rewrite Hf. by setoid_rewrite Hmem.
Qed.

(** Two registries holding the same leaves are the same registry. *)
Lemma holds_unique (reg reg' : ZarrChecksumTree) (l : list ChecksummedFile) :
  holds reg l -> holds reg' l -> reg = reg'.
Proof.
  intros H H'. apply map_eq. intros q.
  pose proof (holds_dom _ _ H q) as Hd. pose proof (holds_dom _ _ H' q) as Hd'.
  pose proof (holds_unresolved _ _ H q) as Hr.
  pose proof (holds_unresolved _ _ H' q) as Hr'.
  pose proof (holds_files _ _ H q) as Hf. pose proof (holds_files _ _ H' q) as Hf'.
  pose proof (holds_links _ _ H q) as Hl. pose proof (holds_links _ _ H' q) as Hl'.
  unfold files_at, resolved_at in *.
  destruct (reg !! q) as [n|] eqn:Hn, (reg' !! q) as [n'|] eqn:Hn'; simpl in *.
  - f_equal. destruct n as [fs sd rs], n' as [fs' sd' rs']. simpl in *.
    subst rs rs'. f_equal.
    + apply map_eq. intros name. apply option_eq. intros v.
      by rewrite Hf, Hf'.
    + apply set_eq. intros s. rewrite (Hl _ s eq_refl), (Hl' _ s eq_refl).
      rewrite (holds_dom _ _ H), (holds_dom _ _ H'). done.
  - assert (is_Some (@None DirectoryNode)) as []; [|done].
    apply Hd', Hd. by eexists.
  - assert (is_Some (@None DirectoryNode)) as []; [|done].
    apply Hd, Hd'. by eexists.
  - done.
Qed.

Section Ingestion.
Context {backend : HashBackend}.

(** One [add_leaf] on a registry holding [l]: it fails exactly when a leaf
    of [l] is filed under the same directory and name, the exception is then
    [DuplicatePathError], and otherwise the new registry holds [f :: l]. *)
Lemma add_file_holds (reg : ZarrChecksumTree) (l : list ChecksummedFile)
    (f : ChecksummedFile) :
  holds reg l ->
  match add_file reg f with
  | Ok reg' =>
      (forall f', f' ∈ l -> leaf_key f' <> leaf_key f) /\ holds reg' (f :: l)
  | Err e =>
      e = DuplicatePathError /\ exists f', f' ∈ l /\ leaf_key f' = leaf_key f
  end.
Proof.
  intros H. pose proof (holds_prefix_closed _ _ H) as Hclosed.
  destruct H as [Hd Hl Hf Hr].
  unfold add_file, add_leaf.
  fold (leaf_dir f). fold (leaf_name f).
  set (d := leaf_dir f). set (nm := leaf_name f).
  destruct (ensure_directory_spec reg d Hclosed Hl) as (Hc1 & Hl1 & Hd1 & Hf1 & Hr1).
  set (reg1 := ensure_directory reg d) in *.
  destruct (reg1 !! d) as [node|] eqn:Hnode.
  2: { assert (is_Some (reg1 !! d)) as Hsome by (apply Hd1; by right).
       rewrite Hnode in Hsome. by destruct Hsome. }
  assert (Hfiles : files node = files_at reg d).
  { rewrite <- Hf1. unfold files_at. by rewrite Hnode. }
  assert (Hres : resolved node = None).
  { pose proof (Hr1 d) as Hrd. unfold resolved_at in Hrd at 1.
    rewrite Hnode in Hrd. simpl in Hrd. by rewrite Hrd, Hr. }
  destruct (files node !! nm) as [v|] eqn:Hnm.
  { split; [done|]. rewrite Hfiles in Hnm. apply Hf in Hnm as (f' & Hf' & Hkey & _).
    by exists f'. }
  assert (Hfresh : forall f', f' ∈ l -> leaf_key f' <> leaf_key f).
  { intros f' Hf' Hkey. rewrite Hfiles in Hnm.
    assert (files_at reg d !! nm = Some (size f', digest f')) as Hsome.
    { apply Hf. by exists f'. }
    congruence. }
  split; [exact Hfresh|].
  set (node' := {| files := <[ nm := (size f, digest f) ]> (files node);
                   subdirectories := subdirectories node;
                   resolved := resolved node |}).
  assert (Hdom2 : forall q, is_Some (<[ d := node' ]> reg1 !! q)
                            <-> is_Some (reg1 !! q)).
  { intros q. rewrite lookup_insert. case_decide; [|done].
    subst q. rewrite Hnode. split; by eexists. }
  split.
  - intros q. rewrite Hdom2, Hd1, Hd. split.
    + intros [(f' & Hf' & Hpre)|Hpre].
      * exists f'. split; [by right|done].
      * exists f. split; [by left|done].
    + intros (f' & [->|Hf']%elem_of_cons & Hpre); [by right|].
      left. by exists f'.
  - intros q n s. rewrite Hdom2, lookup_insert. case_decide.
    + subst q. intros [= <-]. simpl. by apply Hl1.
    + apply Hl1.
  - intros q name v. unfold files_at at 1. rewrite lookup_insert.
    case_decide as Hq; simpl.
    + subst q. rewrite lookup_insert. case_decide as Hname.
      * subst name. split.
        -- intros [= <-]. exists f. split; [by left|done].
        -- intros (f' & [->|Hf']%elem_of_cons & Hkey & ->); [done|].
           by destruct (Hfresh f' Hf').
      * rewrite Hfiles, Hf. split.
        -- intros (f' & Hf' & Hkey & ->). exists f'. split; [by right|done].
        -- intros (f' & [->|Hf']%elem_of_cons & Hkey & ->).
           ++ unfold leaf_key in Hkey. fold nm in Hkey. congruence.
           ++ by exists f'.
    + fold (files_at reg1 q). rewrite Hf1, Hf. split.
      * intros (f' & Hf' & Hkey & ->). exists f'. split; [by right|done].
      * intros (f' & [->|Hf']%elem_of_cons & Hkey & ->).
        -- unfold leaf_key in Hkey. fold d in Hkey. congruence.
        -- by exists f'.
  - intros q. unfold resolved_at. rewrite lookup_insert. case_decide; simpl.
    + done.
    + fold (resolved_at reg1 q). by rewrite Hr1.
Qed.

(** Ingesting [l] into a new tree: it succeeds exactly when no two leaves
    are filed under the same directory and name, and then the registry holds
    [l]; otherwise it raises [DuplicatePathError]. *)
Lemma ingest_spec (l : list ChecksummedFile) :
  match ingest l with
  | Ok reg => NoDup (leaf_key <$> l) /\ holds reg l
  | Err e => e = DuplicatePathError /\ ~ NoDup (leaf_key <$> l)
  end.
Proof.
  unfold ingest. induction l as [|f l IH] using rev_ind.
  - simpl. split; [constructor|apply holds_new_tree].
  - rewrite foldM_app.
    assert (Hsnoc : NoDup (leaf_key <$> l ++ [f])
                    <-> NoDup (leaf_key <$> l)
                        /\ (forall k, k ∈ leaf_key <$> l -> k ∉ [leaf_key f])
                        /\ NoDup [leaf_key f]).
    { rewrite fmap_app. apply NoDup_app. }
    destruct (foldM add_file new_tree l) as [reg|e]; simpl.
    + destruct IH as [Hnodup Hholds].
      pose proof (add_file_holds reg l f Hholds) as Hadd.
      destruct (add_file reg f) as [reg'|e]; simpl; rewrite Hsnoc.
      * destruct Hadd as [Hfresh Hholds']. split.
        -- split; [done|]. split; [|apply NoDup_singleton].
           intros k (f' & -> & Hf')%list_elem_of_fmap Hin.
           apply list_elem_of_singleton in Hin. by apply (Hfresh f').
        -- eapply holds_ext; [|exact Hholds']. intros f'.
           rewrite elem_of_app, elem_of_cons, list_elem_of_singleton. tauto.
      * destruct Hadd as [-> (f' & Hf' & Hkey)]. split; [done|].
        intros (_ & Hdisj & _). apply (Hdisj (leaf_key f')).
        -- by apply list_elem_of_fmap_2.
        -- rewrite Hkey. by left.
    + destruct IH as [-> Hdup]. split; [done|]. rewrite Hsnoc. by intros [? _].
Qed.

End Ingestion.

(** *** The checksum tree: the canonical order *)

Lemma insert_by_name_perm (e : Entry) (l : list Entry) :
  insert_by_name e l ≡ₚ e :: l.
Proof.
  induction l as [|x l IH]; simpl; [done|].
  destruct (String.leb (entry_name e) (entry_name x)); [done|].
  rewrite IH. apply perm_swap.
Qed.

(** The sorted manifest has the entries it was given. *)
Lemma sort_by_name_perm (l : list Entry) : sort_by_name l ≡ₚ l.
Proof.
  unfold sort_by_name. induction l as [|e l IH]; simpl; [done|].
  by rewrite insert_by_name_perm, IH.
Qed.

Lemma insert_by_name_HdRel (x e : Entry) (l : list Entry) :
  HdRel by_name x l -> by_name x e -> HdRel by_name x (insert_by_name e l).
Proof.
  intros Hhd Hxe. destruct l as [|y l]; simpl; [by constructor|].
  destruct (String.leb (entry_name e) (entry_name y)); constructor; [done|].
  by inversion Hhd.
Qed.

Lemma insert_by_name_sorted (e : Entry) (l : list Entry) :
  Sorted by_name l -> Sorted by_name (insert_by_name e l).
Proof.
  induction l as [|x l IH]; intros Hsorted; simpl.
  - by repeat constructor.
  - destruct (String.leb (entry_name e) (entry_name x)) eqn:Hle.
    + constructor; [done|]. by constructor.
    + inversion Hsorted as [|? ? Hl Hhd]; subst. constructor; [by apply IH|].
      apply insert_by_name_HdRel; [done|].
      destruct (String.leb_total (entry_name e) (entry_name x)); [congruence|done].
Qed.

(** The manifest handed to the serializer is in name order. *)
Lemma sort_by_name_sorted (l : list Entry) : Sorted by_name (sort_by_name l).
Proof.
  unfold sort_by_name. induction l as [|e l IH]; simpl; [constructor|].
  by apply insert_by_name_sorted.
Qed.

(** *** The checksum tree: processing *)

Lemma advances_refl (reg : ZarrChecksumTree) : advances reg reg.
Proof. intros q. by destruct (reg !! q). Qed.

Lemma advances_trans (r1 r2 r3 : ZarrChecksumTree) :
  advances r1 r2 -> advances r2 r3 -> advances r1 r3.
Proof.
  intros H12 H23 q. specialize (H12 q). specialize (H23 q).
  destruct (r1 !! q), (r2 !! q), (r3 !! q); try done.
  destruct H12 as (? & ? & ?), H23 as (? & ? & ?).
  split_and!; [congruence..|auto].
Qed.

Lemma advances_is_Some (reg reg' : ZarrChecksumTree) (q : list string) :
  advances reg reg' -> is_Some (reg !! q) <-> is_Some (reg' !! q).
Proof.
  intros H. specialize (H q).
  destruct (reg !! q), (reg' !! q); try done; split; intros []; by eauto.
Qed.

Lemma advances_linked (reg reg' : ZarrChecksumTree) :
  advances reg reg' -> linked reg -> linked reg'.
Proof.
  intros Hadv Hlinked q n' s Hn' Hs.
  apply (advances_is_Some _ _ _ Hadv).
  pose proof (Hadv q) as Hq. rewrite Hn' in Hq.
  destruct (reg !! q) as [n|] eqn:Hn; [|done].
  destruct Hq as (Hsub & _ & _). apply (Hlinked q n s Hn). by rewrite <- Hsub.
Qed.

Lemma advances_resolved_from (reg reg' : ZarrChecksumTree) (d : nat) :
  advances reg reg' -> resolved_from reg d -> resolved_from reg' d.
Proof.
  intros Hadv Hres q n' Hn' Hlen.
  pose proof (Hadv q) as Hq. rewrite Hn' in Hq.
  destruct (reg !! q) as [n|] eqn:Hn; [|done].
  destruct Hq as (_ & _ & Hmono). apply Hmono. by apply (Hres q n).
Qed.

Lemma advances_resolved_at (reg reg' : ZarrChecksumTree) (q : list string) :
  advances reg reg' -> is_Some (resolved_at reg q) -> is_Some (resolved_at reg' q).
Proof.
  intros Hadv. specialize (Hadv q). unfold resolved_at.
  destruct (reg !! q), (reg' !! q); simpl; try done.
  by destruct Hadv as (_ & _ & ?).
Qed.

Lemma mapM_result_ok {A B : Type} (f : A -> result B) (l : list A) :
  (forall x, x ∈ l -> exists y, f x = Ok y) ->
  exists ys, mapM_result f l = Ok ys.
Proof.
  induction l as [|x l IH]; intros Hall; simpl; [by eexists|].
  destruct (Hall x) as [y ->]; [left|]. simpl.
  destruct IH as [ys ->]; [intros ? ?; apply Hall; by right|]. simpl.
  by eexists.
Qed.

Lemma foldr_max_ge (l : list nat) (x : nat) :
  x ∈ l -> (x <= foldr Nat.max 0 l)%nat.
Proof.
  induction l as [|y l IH]; [by intros ?%elem_of_nil|].
  intros [->|Hin]%elem_of_cons; simpl; [lia|]. specialize (IH Hin). lia.
Qed.

Lemma max_depth_bound (reg : ZarrChecksumTree) (q : list string) :
  is_Some (reg !! q) -> (length q <= max_depth reg)%nat.
Proof.
  intros Hq. unfold max_depth. apply foldr_max_ge.
  apply list_elem_of_In, in_map. apply list_elem_of_In.
  by apply elem_of_elements, elem_of_dom.
Qed.

Section Processing.
Context {backend : HashBackend}.

(** A directory whose subdirectories are all resolved is processed without
    error; only its own [resolved] field changes. *)
Lemma process_node_ok (reg : ZarrChecksumTree) (p : list string) :
  linked reg -> resolved_from reg (S (length p)) -> is_Some (reg !! p) ->
  exists reg', process_node reg p = Ok reg'
               /\ advances reg reg' /\ is_Some (resolved_at reg' p).
Proof.
  intros Hlinked Hres [node Hnode]. unfold process_node. rewrite Hnode.
  destruct (mapM_result_ok (resolved_child reg p) (elements (subdirectories node)))
    as [children ->].
  { intros s Hs%elem_of_elements. unfold resolved_child.
    destruct (Hlinked p node s Hnode Hs) as [child Hchild]. rewrite Hchild.
    destruct (Hres (p ++ [s]) child Hchild) as [r ->]; [|by eexists].
    rewrite length_app. simpl. lia. }
  simpl. eexists. split; [done|]. split.
  - intros q. rewrite lookup_insert. case_decide.
    + subst q. rewrite Hnode. simpl. split_and!; [done..|]. by eexists.
    + by destruct (reg !! q).
  - unfold resolved_at. rewrite lookup_insert_eq. simpl. by eexists.
Qed.

Lemma process_nodes_ok (ps : list (list string)) :
  forall (reg : ZarrChecksumTree) (d : nat),
    linked reg -> resolved_from reg (S d) ->
    (forall p, p ∈ ps -> length p = d /\ is_Some (reg !! p)) ->
    exists reg', foldM process_node reg ps = Ok reg'
                 /\ advances reg reg'
                 /\ forall p, p ∈ ps -> is_Some (resolved_at reg' p).
Proof.
  induction ps as [|p ps IH]; intros reg d Hlinked Hres Hps; simpl.
  - exists reg. split; [done|]. split; [apply advances_refl|].
    by intros p ?%elem_of_nil.
  - destruct (Hps p) as [Hlen Hp]; [left|].
    destruct (process_node_ok reg p Hlinked) as (reg1 & -> & Hadv1 & Hdone1);
      [by rewrite Hlen|done|].
    simpl.
    destruct (IH reg1 d) as (reg' & -> & Hadv & Hdone).
    + by eapply advances_linked.
    + by eapply advances_resolved_from.
    + intros p' Hp'. destruct (Hps p') as [? ?]; [by right|].
      split; [done|]. by apply (advances_is_Some _ _ _ Hadv1).
    + exists reg'. split; [done|]. split; [by eapply advances_trans|].
      intros p' [->|Hp']%elem_of_cons; [|by apply Hdone].
      by eapply advances_resolved_at.
Qed.

Lemma process_level_ok (reg : ZarrChecksumTree) (d : nat) :
  linked reg -> resolved_from reg (S d) ->
  exists reg', process_level reg d = Ok reg'
               /\ advances reg reg' /\ resolved_from reg' d.
Proof.
  intros Hlinked Hres. unfold process_level.
  destruct (process_nodes_ok (paths_at_depth reg d) reg d Hlinked Hres)
    as (reg' & -> & Hadv & Hdone).
  { intros p Hp. apply list_elem_of_In, List.filter_In in Hp as [Hp Hlen].
    apply Nat.eqb_eq in Hlen. split; [done|].
    by apply list_elem_of_In, elem_of_elements, elem_of_dom in Hp. }
  exists reg'. split; [done|]. split; [done|].
  intros q n' Hn' Hlen.
  destruct (decide (length q = d)) as [Heq|Hne].
  - assert (Hq : is_Some (resolved_at reg' q)).
    { apply Hdone. apply list_elem_of_In, List.filter_In. split.
      - apply list_elem_of_In, elem_of_elements, elem_of_dom.
        apply (advances_is_Some _ _ _ Hadv). by eexists.
      - by apply Nat.eqb_eq. }
    unfold resolved_at in Hq. by rewrite Hn' in Hq.
  - apply (advances_resolved_from _ _ _ Hadv Hres q n' Hn'). lia.
Qed.

Lemma process_levels_ok (d : nat) :
  forall reg : ZarrChecksumTree,
    linked reg -> resolved_from reg (S d) ->
    exists reg', foldM process_level reg (rev (seq 0 (S d))) = Ok reg'
                 /\ advances reg reg' /\ resolved_from reg' 0.
Proof.
  induction d as [|d IH]; intros reg Hlinked Hres.
  - simpl. destruct (process_level_ok reg 0 Hlinked Hres) as (reg' & -> & ? & ?).
    simpl. by exists reg'.
  - assert (Hlev : rev (seq 0 (S (S d))) = S d :: rev (seq 0 (S d))).
    { rewrite (seq_S (S d)), rev_app_distr. reflexivity. }
    rewrite Hlev, foldM_cons.
    destruct (process_level_ok reg (S d) Hlinked Hres) as (reg1 & -> & Hadv1 & Hres1).
    destruct (IH reg1) as (reg' & Hfold & Hadv & Hres'); [|done|].
    { by eapply advances_linked. }
    exists reg'. split; [exact Hfold|]. split; [by eapply advances_trans|done].
Qed.

(** Processing a registry whose links are sound and whose root is there
    resolves the root. *)
Lemma process_root_ok (reg : ZarrChecksumTree) :
  linked reg -> (reg <> ∅ -> is_Some (reg !! [])) ->
  exists r, process_root reg = Ok r.
Proof.
  intros Hlinked Hroot. unfold process_root.
  case_decide as Hempty; [by eexists|].
  destruct (process_levels_ok (max_depth reg) reg Hlinked)
    as (reg' & Hfold & Hadv & Hres).
  { intros q n Hn Hlen. assert (length q <= max_depth reg)%nat; [|lia].
    apply max_depth_bound. by eexists. }
  unfold levels. rewrite Hfold. simpl.
  destruct (proj1 (advances_is_Some _ _ [] Hadv) (Hroot Hempty)) as [root Hr].
  rewrite Hr. destruct (Hres [] root Hr) as [r ->]; [simpl; lia|].
  by eexists.
Qed.

Lemma holds_linked (reg : ZarrChecksumTree) (l : list ChecksummedFile) :
  holds reg l -> linked reg.
Proof. intros H q n s Hn Hs. by apply (holds_links _ _ H q n s Hn). Qed.

Lemma holds_root (reg : ZarrChecksumTree) (l : list ChecksummedFile) :
  holds reg l -> reg <> ∅ -> is_Some (reg !! []).
Proof.
  intros H Hne. apply (holds_dom _ _ H).
  destruct (map_choose _ Hne) as (q & n & Hq).
  assert (is_Some (reg !! q)) as Hsome by by eexists.
  apply (holds_dom _ _ H) in Hsome as (f & Hf & _).
  exists f. split; [done|apply prefix_nil].
Qed.

(** Distinct well-formed paths are filed under distinct directory and
    name. *)
Lemma leaf_key_inj (p q : Path) :
  wellformed_path p -> wellformed_path q ->
  (path_parent p, path_name p) = (path_parent q, path_name q) -> p = q.
Proof.
  unfold wellformed_path, path_parent, path_name. intros Hp Hq.
  destruct p as [|a p _] using rev_ind; destruct q as [|b q _] using rev_ind.
  - done.
  - rewrite removelast_last, last_snoc. simpl. intros [= Hparent Hname].
    subst b. destruct Hq. apply elem_of_app. right. left.
  - rewrite removelast_last, last_snoc. simpl. intros [= Hparent Hname].
    subst a. destruct Hp. apply elem_of_app. right. left.
  - rewrite !removelast_last, !last_snoc. simpl. by intros [= -> ->].
Qed.

Lemma NoDup_leaf_key (l : list ChecksummedFile) :
  NoDup (path <$> l) -> Forall wellformed_path (path <$> l) ->
  NoDup (leaf_key <$> l).
Proof.
  intros Hnodup Hwf.
  replace (leaf_key <$> l)
    with ((fun p => (path_parent p, path_name p)) <$> (path <$> l))
    by (by rewrite <- list_fmap_compose).
  apply NoDup_fmap_2_strong; [|done].
  rewrite Forall_forall in Hwf.
  intros p q Hp Hq. apply leaf_key_inj; by apply Hwf.
Qed.

End Processing.

(** *** [compute_zarr_checksum] *)

Section CalculatorClaims.
Context {backend : HashBackend}.

(** A registry built by ingestion is processed without error. *)
Lemma process_after_ingest (l : list ChecksummedFile) (tree : ZarrChecksumTree) :
  ingest l = Ok tree -> exists d, process tree = Ok d.
Proof.
  intros Hingest. pose proof (ingest_spec l) as Hspec.
  rewrite Hingest in Hspec. destruct Hspec as [_ Hholds].
  destruct (process_root_ok tree) as [r Hr].
  - by eapply holds_linked.
  - by eapply holds_root.
  - unfold process. rewrite Hr. by eexists.
Qed.

(** C1. For leaf records with pairwise distinct paths,
    [compute_zarr_checksum] gives the same result for every permutation of
    the order in which the records are produced; and when the paths have no
    empty segment, as paths built by [pathlib] do, that result is a root
    digest string. *)
Theorem compute_zarr_checksum_order_independent (l l' : list ChecksummedFile) :
  NoDup (path <$> l) -> l ≡ₚ l' ->
  compute_zarr_checksum (generator_of_list l')
  = compute_zarr_checksum (generator_of_list l)
  /\ (Forall wellformed_path (path <$> l) ->
      exists d, compute_zarr_checksum (generator_of_list l) = Ok d).
Proof.
  intros Hnodup Hperm. unfold compute_zarr_checksum. simpl.
  pose proof (ingest_spec l) as Hl. pose proof (ingest_spec l') as Hl'.
  assert (Hkeys : NoDup (leaf_key <$> l) <-> NoDup (leaf_key <$> l')).
  { by rewrite Hperm. }
  destruct (ingest l) as [reg|e] eqn:Hingest, (ingest l') as [reg'|e'].
  - destruct Hl as [_ Hholds], Hl' as [_ Hholds'].
    assert (reg' = reg) as ->.
    { apply (holds_unique _ _ l); [|done].
      eapply holds_ext; [|exact Hholds']. intros f. by rewrite Hperm. }
    split; [done|]. intros _. simpl. by eapply process_after_ingest.
  - destruct Hl as [Hk _], Hl' as [_ Hk']. by apply Hkeys in Hk.
  - destruct Hl as [_ Hk], Hl' as [Hk' _]. by apply Hkeys in Hk'.
  - destruct Hl as [-> Hk], Hl' as [-> _]. split; [done|].
    intros Hwf. destruct Hk. by apply NoDup_leaf_key.
Qed.

(** C3. On a generator that yields nothing, [compute_zarr_checksum] does not
    fail: the root resolves to the digest of the empty manifest with total
    size 0 and file count 0, and the returned string is that digest
    followed by the two zero aggregates. *)
Theorem compute_zarr_checksum_empty :
  compute_zarr_checksum (generator_of_list [])
  = Ok (hash_hex (serialize []) ++ "-0--0")%string
  /\ process_root new_tree
     = Ok {| res_digest := hash_hex (serialize []);
             total_size := 0;
             total_file_count := 0 |}.
Proof.
  assert (Hroot : process_root new_tree
                  = Ok {| res_digest := hash_hex (serialize []);
                          total_size := 0;
                          total_file_count := 0 |}).
  { unfold process_root, new_tree. rewrite decide_True by done.
    unfold encode. rewrite map_to_list_empty. reflexivity. }
  split; [|exact Hroot].
  unfold compute_zarr_checksum, process. simpl. fold new_tree.
  rewrite Hroot. reflexivity.
Qed.

(** The scenario of the specification: three leaves under [a/b] and [a]. *)
Example compute_zarr_checksum_scenario :
  compute_zarr_checksum (generator_of_list sample_leaves)
  = Ok (hash_hex (serialize
          [ DirEntry "a" 60
              (hash_hex (serialize
                 [ DirEntry "b" 30
                     (hash_hex (serialize [ FileEntry "x" 10 "d1";
                                            FileEntry "y" 20 "d2" ]))
                     2;
                   FileEntry "c" 30 "d3" ]))
              3 ])
        ++ "-3--60")%string.
Proof. vm_compute. reflexivity. Qed.

End CalculatorClaims.

Lemma compute_zarr_checksum_order_independent_witness :
  NoDup (path <$> sample_leaves)
  /\ sample_leaves ≡ₚ sample_leaves_shuffled
  /\ @compute_zarr_checksum sample_backend (generator_of_list sample_leaves_shuffled)
     = @compute_zarr_checksum sample_backend (generator_of_list sample_leaves)
  /\ (Forall wellformed_path (path <$> sample_leaves) ->
      exists d, @compute_zarr_checksum sample_backend
                  (generator_of_list sample_leaves) = Ok d).
Proof.
  assert (Hnodup : NoDup (path <$> sample_leaves)).
  { apply (bool_decide_unpack _). vm_compute. exact I. }
  assert (Hperm : sample_leaves ≡ₚ sample_leaves_shuffled).
  { apply (Permutation_rev sample_leaves). }
  split; [exact Hnodup|]. split; [exact Hperm|].
  exact (@compute_zarr_checksum_order_independent sample_backend
           sample_leaves sample_leaves_shuffled Hnodup Hperm).
Defined.

(** The generators feed [compute_zarr_checksum]: the sample store gives a
    digest, and an exception raised by a generator ends the run. *)
Example compute_sample_store :
  @compute_zarr_checksum sample_backend
    (generator_of_trace (@drain_local sample_backend sample_fs
                           (yield_files_local "/data/z")))
  = Ok ".zgroup;0-2--5".
Proof. vm_compute. reflexivity. Qed.

Example compute_missing_root :
  @compute_zarr_checksum sample_backend
    (generator_of_trace (@drain_local sample_backend sample_fs
                           (yield_files_local "/data/missing")))
  = Err (PyException "Path does not exist").
Proof. vm_compute. reflexivity. Qed.

Example compute_sibling_key :
  @compute_zarr_checksum sample_backend
    (generator_of_trace (@yield_files_s3 (bucket_boto3 sample_bucket 999)
                           1 "bucket" "foo" None))
  = Err ValueError.
Proof. vm_compute. reflexivity. Qed.

(** ** Part III. Further properties of the calculator *)

(** *** Splitting and parsing *)

Lemma split_on_nonempty (c : ascii) (s : string) : split_on c s <> [].
Proof.
  destruct s as [|a s]; simpl; [done|].
  destruct (Ascii.eqb a c); [done|]. by destruct (split_on c s).
Qed.

(** Splitting distributes over a separator. *)
Lemma split_on_app_sep (c : ascii) (s rest : string) :
  split_on c (s ++ String c rest)%string = split_on c s ++ split_on c rest.
Proof.
  induction s as [|a s IH]; simpl.
  - by rewrite Ascii.eqb_refl.
  - destruct (Ascii.eqb a c); [by rewrite IH|].
    rewrite IH. pose proof (split_on_nonempty c s) as Hne.
    by destruct (split_on c s).
Qed.

Lemma segments_app_sep (s rest : string) :
  segments (s ++ String sep rest)%string = segments s ++ segments rest.
Proof. unfold segments. by rewrite split_on_app_sep, List.filter_app. Qed.

Lemma segments_empty : segments "" = [].
Proof. reflexivity. Qed.

Lemma string_app_assoc (a b c : string) :
  ((a ++ b) ++ c)%string = (a ++ (b ++ c))%string.
Proof.
  induction a as [|x a IH]; [done|].
  change (String x ((a ++ b) ++ c) = String x (a ++ (b ++ c)))%string.
  by f_equal.
Qed.

Lemma string_length_app (a b : string) :
  String.length (a ++ b)%string = (String.length a + String.length b)%nat.
Proof.
  induction a as [|x a IH]; [done|].
  change (S (String.length (a ++ b)%string)
          = S (String.length a + String.length b)%nat).
  by rewrite IH.
Qed.

Lemma string_prefix_app (a b : string) :
  String.prefix a b = true -> exists rest, b = (a ++ rest)%string.
Proof.
  revert b. induction a as [|x a IH]; intros b; [by exists b|].
  destruct b as [|y b]; simpl; [done|].
  destruct (ascii_dec x y) as [->|]; [|done].
  intros [rest ->]%IH. by exists rest.
Qed.

Lemma string_prefix_app_true (a rest : string) :
  String.prefix a (a ++ rest)%string = true.
Proof.
  induction a as [|x a IH]; simpl; [by destruct rest|].
  by destruct (ascii_dec x x).
Qed.

Lemma starts_with_app (c : ascii) (a b : string) :
  a <> "" -> starts_with c (a ++ b)%string = starts_with c a.
Proof. by destruct a. Qed.

Lemma ends_with_app (c : ascii) (s : string) :
  ends_with c s = true -> exists s', s = (s' ++ String c "")%string.
Proof.
  induction s as [|a s IH]; simpl; [done|].
  destruct s as [|b s].
  - intros ->%Ascii.eqb_eq. by exists "".
  - intros [s' Hs']%IH. exists (String a s'). simpl. by rewrite Hs'.
Qed.

(** A string without leading separator parses to its kept segments. *)
Lemma path_of_string_relative (s : string) :
  starts_with sep s = false -> path_of_string s = segments s.
Proof.
  intros Hs. unfold path_of_string, splitroot. by rewrite Hs.
Qed.

Lemma segment_not_rooted (x : string) :
  ~ In sep (list_ascii_of_string x) -> starts_with sep x = false.
Proof.
  destruct x as [|a x]; simpl; [done|].
  intros Hnot. destruct (Ascii.eqb_spec a sep) as [->|]; [|done].
  destruct Hnot. by left.
Qed.

(** A parsed path has a root exactly when the string starts with a
    separator. *)
Lemma has_root_path_of_string (s : string) :
  has_root (path_of_string s) = starts_with sep s.
Proof.
  destruct (starts_with sep s) eqn:Hs.
  - unfold path_of_string, splitroot. rewrite Hs.
    by destruct (Nat.eqb _ 2).
  - pose proof (path_of_string_no_root s) as Hplain.
    destruct (has_root (path_of_string s)) eqn:Hroot; [|done].
    rewrite path_of_string_relative in * by done.
    pose proof (segments_plain s) as Hseg. fold (segments s) in Hseg.
    destruct (segments s) as [|x xs]; [done|]. simpl in Hroot.
    apply Forall_cons in Hseg as [(_ & _ & Hx) _].
    by rewrite (segment_not_rooted x Hx) in Hroot.
Qed.

(** The probe prefix is the prefix's own text, cut before a trailing
    separator, followed by one separator; both parse to the same path. *)
Lemma os_path_join_empty_split (prefix : string) :
  prefix <> "" -> starts_with sep prefix = false ->
  exists stem, stem <> "" /\ starts_with sep stem = false
    /\ os_path_join_empty prefix = (stem ++ String sep "")%string
    /\ path_of_string prefix = segments stem.
Proof.
  intros Hne Hrel. unfold os_path_join_empty.
  destruct (String.eqb_spec prefix "") as [|_]; [done|]. simpl.
  destruct (ends_with sep prefix) eqn:Hends.
  - apply ends_with_app in Hends as [stem ->].
    assert (stem <> "") as Hstem by (intros ->; done).
    exists stem. rewrite starts_with_app in Hrel by done.
    split_and!; try done.
    rewrite path_of_string_relative by (by rewrite starts_with_app).
    by rewrite segments_app_sep, segments_empty, app_nil_r.
  - exists prefix. split_and!; try done. by apply path_of_string_relative.
Qed.

Lemma relative_to_app (pre p : Path) :
  (pre = [] -> has_root p = false) ->
  relative_to (pre ++ p) pre = Ok p.
Proof.
  intros Hroot. unfold relative_to. destruct pre as [|o os].
  - simpl. by rewrite Hroot.
  - cbv iota. rewrite take_app_length, drop_app_length.
    by rewrite decide_True.
Qed.

(** *** [yield_files_s3]: which keys map to a record *)


(** [relative_to] on a key under a stem: the stem's segments are a leading
    part of the key's path and what is left are the segments of the rest. *)
Lemma relative_to_under_stem (stem rest : string) :
  stem <> "" -> starts_with sep stem = false ->
  relative_to (path_of_string (stem ++ String sep rest)%string) (segments stem)
  = Ok (segments rest).
Proof.
  intros Hstem Hrel.
  rewrite path_of_string_relative by (by rewrite starts_with_app).
  rewrite segments_app_sep. apply relative_to_app.
  intros _. pose proof (segments_plain rest) as Hplain.
  fold (segments rest) in Hplain.
  destruct (segments rest) as [|x xs]; [done|]. simpl.
  apply Forall_cons in Hplain as [(_ & _ & Hx) _].
  by apply segment_not_rooted.
Qed.

(** X6. With the default prefix (the empty string) a key maps to the path
    of the whole key, unless the key starts with a separator: then
    [relative_to] raises [ValueError]. *)
Theorem mapped_file_default_prefix (obj : S3Object) :
  mapped_file "" obj
  = if starts_with sep (Key obj) then Err ValueError
    else Ok {| path := path_of_string (Key obj);
               size := Size obj;
               digest := strip dquote (ETag obj) |}.
Proof.
  unfold mapped_file.
  change (path_of_string "") with (@nil string).
  unfold relative_to. rewrite has_root_path_of_string.
  by destruct (starts_with sep (Key obj)).
Qed.

Lemma rstrip_snoc (c : ascii) (s : string) :
  ~ In c (list_ascii_of_string s) -> rstrip c (s ++ String c "")%string = s.
Proof.
  induction s as [|a s IH]; intros Hnot.
  - simpl. by rewrite Ascii.eqb_refl.
  - change (rstrip c (String a (s ++ String c ""))%string = String a s).
    simpl in Hnot. simpl. rewrite IH by tauto.
    destruct s as [|b s]; [|done].
    destruct (Ascii.eqb_spec a c) as [->|]; [|done]. destruct Hnot. by left.
Qed.

Lemma lstrip_no_lead (c : ascii) (s : string) :
  starts_with c s = false -> lstrip c s = s.
Proof. destruct s as [|a s]; simpl; [done|]. by intros ->. Qed.

(** X7. For an object whose ETag is a digest text without double quote,
    wrapped in one pair of double quotes, the yielded digest is that text. *)
Theorem mapped_file_unquotes_etag (prefix text : string) (obj : S3Object)
    (f : ChecksummedFile) :
  ~ In dquote (list_ascii_of_string text) ->
  ETag obj = quoted text ->
  mapped_file prefix obj = Ok f ->
  digest f = text.
Proof.
  intros Hnot Hetag Hf. unfold mapped_file in Hf.
  destruct (relative_to _ _) as [p|e]; [|done]. simpl in Hf.
  injection Hf as <-. simpl. rewrite Hetag. unfold quoted, strip.
  change (lstrip dquote (String dquote (text ++ String dquote "")))
    with (lstrip dquote (text ++ String dquote ""))%string.
  destruct text as [|a text]; [reflexivity|].
  rewrite lstrip_no_lead.
  - by apply rstrip_snoc.
  - simpl. destruct (Ascii.eqb_spec a dquote) as [->|]; [|done].
    destruct Hnot. by left.
Qed.

(** A doubled separator inside a key does not change the parsed path. *)
Lemma path_of_string_doubled_sep (a b : string) :
  a <> "" -> starts_with sep a = false ->
  path_of_string (a ++ String sep (String sep b))%string
  = path_of_string (a ++ String sep b)%string.
Proof.
  intros Ha Hrel.
  rewrite !path_of_string_relative by (by rewrite starts_with_app).
  rewrite !segments_app_sep.
  change (String sep b) with ("" ++ String sep b)%string.
  by rewrite segments_app_sep, segments_empty.
Qed.

(** X8. Two objects whose keys differ only by a doubled separator yield
    records with the same path: whenever the key with single separators
    maps to a record, so does the other, with an equal path. *)
Theorem mapped_file_doubled_separator (prefix a b : string) (o1 o2 : S3Object)
    (f1 : ChecksummedFile) :
  a <> "" -> starts_with sep a = false ->
  Key o1 = (a ++ String sep b)%string ->
  Key o2 = (a ++ String sep (String sep b))%string ->
  mapped_file prefix o1 = Ok f1 ->
  exists f2, mapped_file prefix o2 = Ok f2 /\ path f2 = path f1 /\ Key o2 <> Key o1.
Proof.
  intros Ha Hrel Hk1 Hk2 Hf1. unfold mapped_file in Hf1.
  destruct (relative_to (path_of_string (Key o1)) _) as [p|e] eqn:Hr; [|done].
  simpl in Hf1. injection Hf1 as <-.
  exists {| path := p; size := Size o2; digest := strip dquote (ETag o2) |}.
  split.
  { unfold mapped_file. rewrite Hk2, path_of_string_doubled_sep by done.
    by rewrite <- Hk1, Hr. }
  split; [done|].
  rewrite Hk1, Hk2. intros Heq. apply (f_equal String.length) in Heq.
  rewrite !string_length_app in Heq. simpl in Heq. lia.
Qed.

(** X4. For a non-empty prefix that does not start with a separator, every
    key under the probe prefix (the prefix joined with a trailing separator)
    maps to a record: [relative_to] does not raise, and the record's path is
    the kept segments of the key's remainder. *)
Theorem mapped_file_under_probe_prefix (prefix : string) (obj : S3Object) :
  prefix <> "" -> starts_with sep prefix = false ->
  String.prefix (os_path_join_empty prefix) (Key obj) = true ->
  exists rest,
    Key obj = (os_path_join_empty prefix ++ rest)%string
    /\ mapped_file prefix obj
       = Ok {| path := segments rest;
               size := Size obj;
               digest := strip dquote (ETag obj) |}.
Proof.
  intros Hne Hrel Hpre.
  destruct (string_prefix_app _ _ Hpre) as [rest Hkey]. exists rest.
  split; [done|].
  destruct (os_path_join_empty_split prefix Hne Hrel)
    as (stem & Hstem & Hstem_rel & Hjoin & Hpath).
  unfold mapped_file. rewrite Hkey, Hjoin, Hpath.
  rewrite string_app_assoc.
  change (String sep "" ++ rest)%string with (String sep rest).
  by rewrite relative_to_under_stem.
Qed.

(** *** [yield_files_s3]: the listing loop on a bucket *)

Lemma yield_mapped_app (prefix : string) (l1 l2 : list S3Object) :
  yield_mapped prefix (l1 ++ l2)
  = match yield_mapped prefix l1 with
    | (ys1, Some ex) => (ys1, Some ex)
    | (ys1, None) =>
        let '(ys2, e) := yield_mapped prefix l2 in (ys1 ++ ys2, e)
    end.
Proof.
  induction l1 as [|o l1 IH]; simpl.
  - by destruct (yield_mapped prefix l2).
  - destruct (mapped_file prefix o) as [f|ex]; [|done].
    rewrite IH. destruct (yield_mapped prefix l1) as [ys1 [ex|]]; [done|].
    by destruct (yield_mapped prefix l2).
Qed.

Lemma yield_mapped_all (prefix : string) (objs : list S3Object)
    (fs : list ChecksummedFile) :
  Forall2 (fun o f => mapped_file prefix o = Ok f) objs fs ->
  yield_mapped prefix objs = (fs, None).
Proof.
  induction 1 as [|o f objs fs Hf _ IH]; simpl; [done|].
  by rewrite Hf, IH.
Qed.

Lemma yield_mapped_stops (prefix : string) (objs1 objs2 : list S3Object)
    (bad : S3Object) (fs : list ChecksummedFile) :
  Forall2 (fun o f => mapped_file prefix o = Ok f) objs1 fs ->
  (forall f, mapped_file prefix bad <> Ok f) ->
  yield_mapped prefix (objs1 ++ bad :: objs2) = (fs, Some ValueError).
Proof.
  intros Hok Hbad. rewrite yield_mapped_app, (yield_mapped_all _ _ _ Hok).
  simpl. unfold mapped_file in *.
  destruct (relative_to _ _) as [p|e] eqn:Hrel.
  - by destruct (Hbad {| path := p; size := Size bad;
                         digest := strip dquote (ETag bad) |}).
  - simpl. rewrite app_nil_r. f_equal. f_equal.
    unfold relative_to in Hrel.
    destruct (path_of_string prefix); [destruct (has_root _)|case_decide];
      congruence.
Qed.

(** The page a bucket serves at an offset. *)
Lemma bucket_client_page (objects : list S3Object) (page : nat)
    (bucket prefix : string) (tok : option string) :
  let start := match tok with None => O | Some t => String.length t end in
  let rest := drop start (matching_objects prefix objects) in
  default [] (Contents (bucket_client objects page
                          (mkListOptions bucket prefix tok)))
  = take (S page) rest
  /\ NextContinuationToken (bucket_client objects page
                              (mkListOptions bucket prefix tok))
     = if Nat.ltb (S page) (length rest)
       then Some (unary (start + S page)) else None.
Proof.
  unfold bucket_client, matching_objects. simpl.
  split; [|done]. by destruct (drop _ _).
Qed.

(** On a bucket the pages add up to one pass over the matching objects. *)
Lemma s3_pages_bucket (objects : list S3Object) (page : nat)
    (bucket prefix : string) (fuel : nat) :
  forall tok : option string,
    let start := match tok with None => O | Some t => String.length t end in
    (length (matching_objects prefix objects) - start < fuel)%nat ->
    s3_pages fuel (bucket_client objects page) bucket prefix tok
    = let '(ys, e) := yield_mapped prefix
                        (drop start (matching_objects prefix objects)) in
      (ys, mapped_outcome e).
Proof.
  induction fuel as [|fuel IH]; intros tok start Hfuel; [lia|].
  destruct (bucket_client_page objects page bucket prefix tok) as [Hpage Htok].
  fold start in Hpage, Htok.
  set (rest := drop start (matching_objects prefix objects)) in *.
  cbn [s3_pages]. rewrite Hpage, Htok.
  rewrite <- (take_drop (S page) rest) at 2. rewrite yield_mapped_app.
  destruct (yield_mapped prefix (take (S page) rest)) as [ys [ex|]]; [done|].
  destruct (Nat.ltb_spec (S page) (length rest)) as [Hlt|Hge].
  - specialize (IH (Some (unary (start + S page)))). simpl in IH.
    rewrite length_unary in IH. rewrite IH.
    + subst rest. rewrite drop_drop.
      by destruct (yield_mapped prefix _) as [ys' e'].
    + subst rest. rewrite length_drop in Hlt. lia.
  - rewrite drop_ge by lia. simpl. by rewrite app_nil_r.
Qed.

Lemma bucket_probe (objects : list S3Object) (page : nat)
    (bucket pre : string) :
  Contents (bucket_client objects page (mkListOptions bucket pre None)) = None
  <-> matching_objects pre objects = [].
Proof.
  unfold bucket_client, matching_objects. simpl.
  by destruct (List.filter _ objects).
Qed.

(** The trace of [yield_files_s3] on a bucket, for enough fuel. *)
Lemma yield_files_s3_bucket (objects : list S3Object) (page fuel : nat)
    (bucket prefix : string) (credentials : option AWSCredentials) :
  (length objects < fuel)%nat ->
  @yield_files_s3 (bucket_boto3 objects page) fuel bucket prefix credentials
  = match matching_objects (os_path_join_empty prefix) objects with
    | [] => {| printed := "Retrieving files..." :: no_files_warning prefix;
               yielded := [];
               outcome := Returned |}
    | _ => let '(ys, e) := yield_mapped prefix
                             (matching_objects prefix objects) in
           {| printed := ["Retrieving files..."];
              yielded := ys;
              outcome := mapped_outcome e |}
    end.
Proof.
  intros Hfuel. unfold yield_files_s3. cbn [boto3_client bucket_boto3].
  pose proof (bucket_probe objects page bucket (os_path_join_empty prefix))
    as Hprobe.
  destruct (Contents _) as [probe|].
  - destruct (matching_objects (os_path_join_empty prefix) objects) as [|o os];
      [by destruct Hprobe as [_ Hp]; specialize (Hp eq_refl)|].
    rewrite s3_pages_bucket.
    + rewrite drop_0. by destruct (yield_mapped prefix _).
    + pose proof (List.filter_length_le
                    (fun o => String.prefix prefix (Key o)) objects).
      unfold matching_objects. lia.
  - by rewrite (proj1 Hprobe eq_refl).
Qed.

(** X1. On a bucket, what [yield_files_s3] prints, yields and how it ends
    does not depend on the page size of the listing, nor on the bound on
    the number of pages once it exceeds the number of objects. *)
Theorem yield_files_s3_page_size_irrelevant (objects : list S3Object)
    (page page' fuel fuel' : nat) (bucket prefix : string)
    (credentials : option AWSCredentials) :
  (length objects < fuel)%nat -> (length objects < fuel')%nat ->
  @yield_files_s3 (bucket_boto3 objects page) fuel bucket prefix credentials
  = @yield_files_s3 (bucket_boto3 objects page') fuel' bucket prefix credentials.
Proof.
  intros Hfuel Hfuel'.
  rewrite (yield_files_s3_bucket objects page fuel) by done.
  by rewrite (yield_files_s3_bucket objects page' fuel') by done.
Qed.

(** X2. On a bucket that has a key under the probe prefix, when every
    object whose key starts with the prefix maps to a record, the generator
    yields exactly those records, in the order of the listing and across
    all pages, and then returns. *)
Theorem yield_files_s3_lists_all (objects : list S3Object) (page fuel : nat)
    (bucket prefix : string) (credentials : option AWSCredentials)
    (fs : list ChecksummedFile) :
  (length objects < fuel)%nat ->
  matching_objects (os_path_join_empty prefix) objects <> [] ->
  Forall2 (fun o f => mapped_file prefix o = Ok f)
          (matching_objects prefix objects) fs ->
  @yield_files_s3 (bucket_boto3 objects page) fuel bucket prefix credentials
  = {| printed := ["Retrieving files..."];
       yielded := fs;
       outcome := Returned |}.
Proof.
  intros Hfuel Hprobe Hall.
  rewrite yield_files_s3_bucket by done.
  destruct (matching_objects (os_path_join_empty prefix) objects); [done|].
  by rewrite (yield_mapped_all _ _ _ Hall).
Qed.

(** X3. On a bucket that has a key under the probe prefix, the first listed
    object whose key is not under the path of the prefix ends the generator
    with [ValueError]: the records of the objects listed before it have
    been yielded, and no object listed after it is. *)
Theorem yield_files_s3_stops_at_first_outside_key (objects : list S3Object)
    (page fuel : nat) (bucket prefix : string)
    (credentials : option AWSCredentials)
    (before after : list S3Object) (bad : S3Object)
    (fs : list ChecksummedFile) :
  (length objects < fuel)%nat ->
  matching_objects (os_path_join_empty prefix) objects <> [] ->
  matching_objects prefix objects = before ++ bad :: after ->
  Forall2 (fun o f => mapped_file prefix o = Ok f) before fs ->
  relative_to (path_of_string (Key bad)) (path_of_string prefix)
  = Err ValueError ->
  @yield_files_s3 (bucket_boto3 objects page) fuel bucket prefix credentials
  = {| printed := ["Retrieving files..."];
       yielded := fs;
       outcome := Raised ValueError |}.
Proof.
  intros Hfuel Hprobe Hsplit Hbefore Hbad.
  rewrite yield_files_s3_bucket by done.
  destruct (matching_objects (os_path_join_empty prefix) objects); [done|].
  rewrite Hsplit, (yield_mapped_stops _ _ _ _ _ Hbefore); [done|].
  intros f. unfold mapped_file. by rewrite Hbad.
Qed.

Lemma mapped_under_stem (stem : string) (objs : list S3Object) :
  stem <> "" -> starts_with sep stem = false ->
  Forall (fun o => String.prefix (stem ++ String sep "") (Key o) = true) objs ->
  exists fs,
    Forall2 (fun o f => mapped_file (stem ++ String sep "") o = Ok f) objs fs
    /\ Forall2 (fun f o =>
                  size f = Size o /\ digest f = strip dquote (ETag o)
                  /\ exists rest,
                      Key o = (stem ++ String sep rest)%string
                      /\ path f = segments rest)
               fs objs.
Proof.
  intros Hstem Hrel. induction 1 as [|o objs Ho _ IH].
  - exists []. split; constructor.
  - destruct IH as (fs & Hfs & Hrec).
    apply string_prefix_app in Ho as [rest Hkey].
    rewrite string_app_assoc in Hkey.
    change (String sep "" ++ rest)%string with (String sep rest) in Hkey.
    exists ({| path := segments rest; size := Size o;
               digest := strip dquote (ETag o) |} :: fs).
    split; constructor; try done.
    + unfold mapped_file. rewrite Hkey.
      rewrite (path_of_string_relative (stem ++ String sep "")%string)
        by (by rewrite starts_with_app).
      rewrite segments_app_sep, segments_empty, app_nil_r.
      by rewrite relative_to_under_stem.
    + simpl. split_and!; try done. by exists rest.
Qed.

Lemma matching_objects_prefix (pre : string) (objects : list S3Object) :
  Forall (fun o => String.prefix pre (Key o) = true)
         (matching_objects pre objects).
Proof.
  apply List.Forall_forall. intros o Ho.
  by apply List.filter_In in Ho as [_ Ho].
Qed.

(** X5. When the prefix is given with a trailing separator (and is not
    rooted), the generator cannot raise on a bucket: every object whose key
    starts with the prefix is yielded, in listing order, with the kept
    segments of the key's remainder as its path, and the generator returns
    normally. *)
Theorem yield_files_s3_trailing_separator (objects : list S3Object)
    (page fuel : nat) (bucket stem : string)
    (credentials : option AWSCredentials) :
  let prefix := (stem ++ String sep "")%string in
  stem <> "" -> starts_with sep stem = false ->
  (length objects < fuel)%nat ->
  matching_objects prefix objects <> [] ->
  let t := @yield_files_s3 (bucket_boto3 objects page) fuel bucket prefix
                           credentials in
  outcome t = Returned
  /\ Forall2 (fun f o =>
                size f = Size o /\ digest f = strip dquote (ETag o)
                /\ exists rest,
                    Key o = (stem ++ String sep rest)%string
                    /\ path f = segments rest)
             (yielded t) (matching_objects prefix objects).
Proof.
  intros prefix Hstem Hrel Hfuel Hprobe t. subst t prefix.
  set (prefix := (stem ++ String sep "")%string) in *.
  rewrite yield_files_s3_bucket by done.
  assert (Hjoin : os_path_join_empty prefix = prefix).
  { unfold os_path_join_empty, prefix.
    assert (ends_with sep (stem ++ String sep "")%string = true) as ->.
    { clear. induction stem as [|a s IH]; [done|].
      change (ends_with sep (String a (s ++ String sep ""))%string = true).
      simpl. rewrite IH. by destruct (s ++ String sep "")%string. }
    by rewrite orb_true_r. }
  rewrite Hjoin.
  destruct (matching_objects prefix objects) as [|o os] eqn:Hm; [done|].
  rewrite <- Hm.
  destruct (mapped_under_stem stem (matching_objects prefix objects) Hstem Hrel)
    as (fs & Hfs & Hrec); [apply matching_objects_prefix|].
  fold prefix in Hfs. rewrite (yield_mapped_all _ _ _ Hfs). by split.
Qed.

(** *** [yield_files_local]: a key that cannot be read *)

Section LocalExtras.
Context {backend : HashBackend} {fs : FileSystem}.

Lemma visit_file_readable (root_path : Path) (file : string) :
  is_Some (fs_file (path_join root_path (path_of_string file))) ->
  exists f, visit_file root_path file = Ok f /\ path f = path_of_string file.
Proof.
  intros [content Hc]. unfold visit_file. rewrite Hc. by eexists.
Qed.

Lemma drain_loop_stops (root_path : Path) (before after : list string)
    (bad : string) :
  (forall file, file ∈ before ->
     is_Some (fs_file (path_join root_path (path_of_string file)))) ->
  fs_file (path_join root_path (path_of_string bad)) = None ->
  path <$> (drain_loop root_path (before ++ bad :: after)).1
  = path_of_string <$> before
  /\ (drain_loop root_path (before ++ bad :: after)).2 = Raised OSError.
Proof.
  intros Hbefore Hbad. induction before as [|file before IH]; simpl.
  - unfold visit_file. by rewrite Hbad.
  - destruct (visit_file_readable root_path file) as (f & -> & Hpath);
      [apply Hbefore; left|].
    destruct IH as [IH1 IH2]; [intros ? ?; apply Hbefore; by right|].
    destruct (drain_loop root_path (before ++ bad :: after)) as [ys o].
    simpl in *. split; [|done]. by f_equal.
Qed.

(** X9. When a key enumerated by the store is not a readable file, the
    generator raises the [OSError] of [stat] at that key: the keys before
    it have each been yielded, in order, and the keys after it are never
    visited. *)
Theorem yield_files_local_stops_at_unreadable (directory : string)
    (before after : list string) (bad : string) :
  let root_path := path_of_string directory in
  fs_exists root_path = true ->
  fs_store_keys root_path = Ok (before ++ bad :: after) ->
  (forall file, file ∈ before ->
     is_Some (fs_file (path_join root_path (path_of_string file)))) ->
  fs_file (path_join root_path (path_of_string bad)) = None ->
  let t := drain_local (yield_files_local directory) in
  path <$> yielded t = path_of_string <$> before
  /\ outcome t = Raised OSError.
Proof.
  intros root_path Hexists Hkeys Hbefore Hbad t. subst t.
  unfold yield_files_local, drain_local. fold root_path.
  rewrite Hexists, Hkeys. cbn [negb].
  destruct (drain_loop_stops root_path before after bad Hbefore Hbad)
    as [Hpaths Hout].
  by destruct (drain_loop root_path (before ++ bad :: after)) as [ys o].
Qed.

(** *** The generators under [compute_zarr_checksum] *)

(** X10. For a directory that does not exist, [compute_zarr_checksum] on
    the generator of [yield_files_local] raises the exception with message
    [Path does not exist]: the error surfaces when the [for] loop first
    asks the generator for a record, and no checksum is returned. *)
Theorem compute_zarr_checksum_missing_directory (directory : string) :
  fs_exists (path_of_string directory) = false ->
  compute_zarr_checksum
    (generator_of_trace (drain_local (yield_files_local directory)))
  = Err (PyException "Path does not exist").
Proof.
  intros Hmissing. unfold yield_files_local, drain_local.
  rewrite Hmissing. reflexivity.
Qed.

End LocalExtras.

Section S3Extras.
Context {backend : HashBackend} {boto3 : Boto3}.

(** X11. When the probe listing has no contents, [compute_zarr_checksum]
    on the generator of [yield_files_s3] does not fail: the [for] loop adds
    no leaf and the run returns the checksum of the empty tree, the digest
    of the empty manifest with 0 files and 0 bytes. A prefix under which
    nothing is listed is thus reported like an empty store. *)
Theorem compute_zarr_checksum_no_objects (fuel : nat) (bucket prefix : string)
    (credentials : option AWSCredentials) :
  Contents (client_of credentials
              {| Bucket := bucket; Prefix := os_path_join_empty prefix;
                 ContinuationToken := None |}) = None ->
  compute_zarr_checksum
    (generator_of_trace (yield_files_s3 fuel bucket prefix credentials))
  = Ok (hash_hex (serialize []) ++ "-0--0")%string.
Proof.
  unfold yield_files_s3, client_of. intros ->.
  unfold compute_zarr_checksum, generator_of_trace, ingest. simpl.
  unfold process, process_root, new_tree. rewrite decide_True by done.
  unfold encode. rewrite map_to_list_empty. reflexivity.
Qed.

End S3Extras.

(** X12. An object whose key is exactly the probe prefix (the prefix with
    one trailing separator: a directory placeholder) maps to a record with
    the empty path, for a non-empty prefix that does not start with a
    separator. *)
Theorem mapped_file_placeholder_object (prefix : string) (obj : S3Object) :
  prefix <> "" -> starts_with sep prefix = false ->
  Key obj = os_path_join_empty prefix ->
  mapped_file prefix obj
  = Ok {| path := []; size := Size obj; digest := strip dquote (ETag obj) |}.
Proof.
  intros Hne Hrel Hkey.
  destruct (os_path_join_empty_split prefix Hne Hrel)
    as (stem & Hstem & Hstem_rel & Hjoin & Hpath).
  unfold mapped_file. rewrite Hkey, Hjoin, Hpath.
  by rewrite relative_to_under_stem.
Qed.

(** *** Instances *)

Lemma yield_files_s3_page_size_irrelevant_witness :
  (length sample_bucket < 4)%nat /\ (length sample_bucket < 7)%nat
  /\ @yield_files_s3 (bucket_boto3 sample_bucket 0) 4 "bucket" "foo" None
     = @yield_files_s3 (bucket_boto3 sample_bucket 999) 7 "bucket" "foo" None.
Proof.
  assert (H4 : (length sample_bucket < 4)%nat) by (simpl; lia).
  assert (H7 : (length sample_bucket < 7)%nat) by (simpl; lia).
  split; [exact H4|]. split; [exact H7|].
  exact (yield_files_s3_page_size_irrelevant sample_bucket 0 999 4 7
           "bucket" "foo" None H4 H7).
Defined.

Lemma yield_files_s3_lists_all_witness :
  let fs := [ mkChecksummedFile ["a"] 1 "0cc175b9c0f1b6a831c399e269772661";
              mkChecksummedFile ["b"; "big"] 20971520
                                "9b2cf535f27731c974343645a3985328-2" ] in
  (length sample_bucket < 4)%nat
  /\ matching_objects (os_path_join_empty "foo/") sample_bucket <> []
  /\ Forall2 (fun o f => mapped_file "foo/" o = Ok f)
             (matching_objects "foo/" sample_bucket) fs
  /\ @yield_files_s3 (bucket_boto3 sample_bucket 0) 4 "bucket" "foo/" None
     = {| printed := ["Retrieving files..."];
          yielded := fs;
          outcome := Returned |}.
Proof.
  intros fs.
  assert (Hlen : (length sample_bucket < 4)%nat) by (simpl; lia).
  assert (Hprobe : matching_objects (os_path_join_empty "foo/") sample_bucket
                   <> []) by (vm_compute; discriminate).
  assert (Hall : Forall2 (fun o f => mapped_file "foo/" o = Ok f)
                         (matching_objects "foo/" sample_bucket) fs).
  { repeat constructor. }
  split; [exact Hlen|]. split; [exact Hprobe|]. split; [exact Hall|].
  exact (yield_files_s3_lists_all sample_bucket 0 4 "bucket" "foo/" None fs
           Hlen Hprobe Hall).
Defined.

Lemma yield_files_s3_stops_at_first_outside_key_witness :
  let before := [ mkS3Object "foo/a" 1 (quoted "0cc175b9c0f1b6a831c399e269772661");
                  mkS3Object "foo/b/big" 20971520
                             (quoted "9b2cf535f27731c974343645a3985328-2") ] in
  let bad := mkS3Object "foobar" 2 (quoted "3858f62230ac3c915f300c664312c63f") in
  let fs := [ mkChecksummedFile ["a"] 1 "0cc175b9c0f1b6a831c399e269772661";
              mkChecksummedFile ["b"; "big"] 20971520
                                "9b2cf535f27731c974343645a3985328-2" ] in
  (length sample_bucket < 4)%nat
  /\ matching_objects (os_path_join_empty "foo") sample_bucket <> []
  /\ matching_objects "foo" sample_bucket = before ++ bad :: []
  /\ Forall2 (fun o f => mapped_file "foo" o = Ok f) before fs
  /\ relative_to (path_of_string (Key bad)) (path_of_string "foo")
     = Err ValueError
  /\ @yield_files_s3 (bucket_boto3 sample_bucket 0) 4 "bucket" "foo" None
     = {| printed := ["Retrieving files..."];
          yielded := fs;
          outcome := Raised ValueError |}.
Proof.
  intros before bad fs.
  assert (Hlen : (length sample_bucket < 4)%nat) by (simpl; lia).
  assert (Hprobe : matching_objects (os_path_join_empty "foo") sample_bucket
                   <> []) by (vm_compute; discriminate).
  assert (Hsplit : matching_objects "foo" sample_bucket = before ++ bad :: [])
    by reflexivity.
  assert (Hbefore : Forall2 (fun o f => mapped_file "foo" o = Ok f) before fs).
  { repeat constructor. }
  assert (Hbad : relative_to (path_of_string (Key bad)) (path_of_string "foo")
                 = Err ValueError) by reflexivity.
  split; [exact Hlen|]. split; [exact Hprobe|]. split; [exact Hsplit|].
  split; [exact Hbefore|]. split; [exact Hbad|].
  exact (yield_files_s3_stops_at_first_outside_key sample_bucket 0 4
           "bucket" "foo" None before [] bad fs
           Hlen Hprobe Hsplit Hbefore Hbad).
Defined.

Lemma mapped_file_under_probe_prefix_witness :
  let obj := mkS3Object "foo/b/big" 20971520
                        (quoted "9b2cf535f27731c974343645a3985328-2") in
  "foo" <> "" /\ starts_with sep "foo" = false
  /\ String.prefix (os_path_join_empty "foo") (Key obj) = true
  /\ exists rest,
      Key obj = (os_path_join_empty "foo" ++ rest)%string
      /\ mapped_file "foo" obj
         = Ok {| path := segments rest;
                 size := Size obj;
                 digest := strip dquote (ETag obj) |}.
Proof.
  intros obj.
  assert (Hne : "foo" <> "") by discriminate.
  assert (Hpre : String.prefix (os_path_join_empty "foo") (Key obj) = true)
    by reflexivity.
  split; [exact Hne|]. split; [reflexivity|]. split; [exact Hpre|].
  exact (mapped_file_under_probe_prefix "foo" obj Hne eq_refl Hpre).
Defined.

Lemma yield_files_s3_trailing_separator_witness :
  "foo" <> "" /\ starts_with sep "foo" = false
  /\ (length sample_bucket < 4)%nat
  /\ matching_objects "foo/" sample_bucket <> []
  /\ outcome (@yield_files_s3 (bucket_boto3 sample_bucket 0) 4 "bucket"
                              "foo/" None) = Returned.
Proof.
  assert (Hne : "foo" <> "") by discriminate.
  assert (Hlen : (length sample_bucket < 4)%nat) by (simpl; lia).
  assert (Hprobe : matching_objects "foo/" sample_bucket <> [])
    by (vm_compute; discriminate).
  split; [exact Hne|]. split; [reflexivity|]. split; [exact Hlen|].
  split; [exact Hprobe|].
  exact (proj1 (yield_files_s3_trailing_separator sample_bucket 0 4 "bucket"
                  "foo" None Hne eq_refl Hlen Hprobe)).
Defined.

Lemma mapped_file_unquotes_etag_witness :
  let text := "0cc175b9c0f1b6a831c399e269772661" in
  let obj := mkS3Object "foo/a" 1 (quoted text) in
  let f := mkChecksummedFile ["a"] 1 text in
  ~ In dquote (list_ascii_of_string text)
  /\ ETag obj = quoted text
  /\ mapped_file "foo" obj = Ok f
  /\ digest f = text.
Proof.
  intros text obj f.
  assert (Hnot : ~ In dquote (list_ascii_of_string text)).
  { vm_compute. intuition discriminate. }
  assert (Hf : mapped_file "foo" obj = Ok f) by reflexivity.
  split; [exact Hnot|]. split; [reflexivity|]. split; [exact Hf|].
  exact (mapped_file_unquotes_etag "foo" text obj f Hnot eq_refl Hf).
Defined.

Lemma mapped_file_doubled_separator_witness :
  let o1 := mkS3Object "foo/a" 1 (quoted "0cc175b9c0f1b6a831c399e269772661") in
  let o2 := mkS3Object "foo//a" 2 (quoted "92eb5ffee6ae2fec3ad71c777531578f") in
  let f1 := mkChecksummedFile ["a"] 1 "0cc175b9c0f1b6a831c399e269772661" in
  "foo" <> "" /\ starts_with sep "foo" = false
  /\ Key o1 = ("foo" ++ String sep "a")%string
  /\ Key o2 = ("foo" ++ String sep (String sep "a"))%string
  /\ mapped_file "foo" o1 = Ok f1
  /\ exists f2, mapped_file "foo" o2 = Ok f2 /\ path f2 = path f1
                /\ Key o2 <> Key o1.
Proof.
  intros o1 o2 f1.
  assert (Hne : "foo" <> "") by discriminate.
  assert (Hf1 : mapped_file "foo" o1 = Ok f1) by reflexivity.
  split; [exact Hne|]. split; [reflexivity|]. split; [reflexivity|].
  split; [reflexivity|]. split; [exact Hf1|].
  exact (mapped_file_doubled_separator "foo" "foo" "a" o1 o2 f1
           Hne eq_refl eq_refl eq_refl Hf1).
Defined.

Lemma yield_files_local_stops_at_unreadable_witness :
  let root_path := path_of_string "/data/z" in
  @fs_exists broken_fs root_path = true
  /\ @fs_store_keys broken_fs root_path = Ok ([".zgroup"] ++ "gone" :: ["0/0"])
  /\ (forall file, file ∈ [".zgroup"] ->
        is_Some (@fs_file broken_fs (path_join root_path (path_of_string file))))
  /\ @fs_file broken_fs (path_join root_path (path_of_string "gone")) = None
  /\ path <$> yielded (@drain_local sample_backend broken_fs
                         (yield_files_local "/data/z"))
     = path_of_string <$> [".zgroup"]
  /\ outcome (@drain_local sample_backend broken_fs
                (yield_files_local "/data/z")) = Raised OSError.
Proof.
  intros root_path.
  assert (Hbefore : forall file, file ∈ [".zgroup"] ->
            is_Some (@fs_file broken_fs
                       (path_join root_path (path_of_string file)))).
  { intros file ->%list_elem_of_singleton. by eexists. }
  split; [reflexivity|]. split; [reflexivity|]. split; [exact Hbefore|].
  split; [reflexivity|].
  exact (@yield_files_local_stops_at_unreadable sample_backend broken_fs
           "/data/z" [".zgroup"] ["0/0"] "gone"
           eq_refl eq_refl Hbefore eq_refl).
Defined.

Lemma compute_zarr_checksum_missing_directory_witness :
  @fs_exists sample_fs (path_of_string "/data/missing") = false
  /\ @compute_zarr_checksum sample_backend
       (generator_of_trace (@drain_local sample_backend sample_fs
                              (yield_files_local "/data/missing")))
     = Err (PyException "Path does not exist").
Proof.
  split; [reflexivity|].
  exact (@compute_zarr_checksum_missing_directory sample_backend sample_fs
           "/data/missing" eq_refl).
Defined.

Lemma compute_zarr_checksum_no_objects_witness :
  Contents (@client_of (bucket_boto3 sample_bucket 0) None
              {| Bucket := "bucket"; Prefix := os_path_join_empty "fo";
                 ContinuationToken := None |}) = None
  /\ @compute_zarr_checksum sample_backend
       (generator_of_trace (@yield_files_s3 (bucket_boto3 sample_bucket 0)
                              5 "bucket" "fo" None))
     = Ok (@hash_hex sample_backend (@serialize sample_backend []) ++ "-0--0")%string.
Proof.
  split; [reflexivity|].
  exact (@compute_zarr_checksum_no_objects sample_backend
           (bucket_boto3 sample_bucket 0) 5 "bucket" "fo" None eq_refl).
Defined.

Lemma mapped_file_placeholder_object_witness :
  let obj := mkS3Object "foo/" 0 (quoted "d41d8cd98f00b204e9800998ecf8427e") in
  "foo" <> "" /\ starts_with sep "foo" = false
  /\ Key obj = os_path_join_empty "foo"
  /\ mapped_file "foo" obj
     = Ok {| path := []; size := 0;
             digest := "d41d8cd98f00b204e9800998ecf8427e" |}.
Proof.
  intros obj.
  assert (Hne : "foo" <> "") by discriminate.
  split; [exact Hne|]. split; [reflexivity|]. split; [reflexivity|].
  exact (mapped_file_placeholder_object "foo" obj Hne eq_refl eq_refl).
Defined.
